(** * share_p2p: room membership, chunked file transfer and the peer registry

    A shallow embedding of
    - the room component ([handleData], [broadcastToOthers],
      [sendSingleFile], [handleLeaveRoom]),
    - the message handler [onData] of the single-peer receiver and
    - the discovery route [api/rooms/[roomId]/peers] ([pruneRoom], [GET],
      [POST], [DELETE]),
    followed by the properties the specification states about them.

    Modelling conventions.
    - A JavaScript [Map] that is iterated (room peers, connections, the
      merge buffer of a user list) is an insertion-ordered association
      list, module [JSMap]; a [Map] that is only looked up by key
      ([receivedFiles], the registry of rooms) is a [gmap].
    - [ArrayBuffer]s and file contents are [list byte]; byte counts and
      [Date.now()] stamps are [Z]; every call of [Date.now()] is an
      explicit argument [now].
    - The percentage [progress] is a JavaScript number obtained by a
      division: it is a [jsnum], an exact rational or one of the special
      values a division by zero produces.
    - React state updaters and refs become explicit state passing over
      [RoomState]; what a handler sends, closes or requests is returned as a
      list of [Effect]s. *)

From stdpp Require Import gmap strings list fin_maps numbers pretty.
From Stdlib Require Import Strings.Byte QArith Qcanon.

Open Scope Z_scope.

(** ** JavaScript [Map] with its insertion order *)

Module JSMap.
Section ordered.
Context {V : Type}.

Definition t := list (string * V).

Definition empty : t := [].

Fixpoint get (k : string) (m : t) : option V :=
  match m with
  | [] => None
  | (k', v) :: m' => if decide (k = k') then Some v else get k m'
  end.

Definition has (k : string) (m : t) : bool :=
  match get k m with Some _ => true | None => false end.

(** [set] keeps the position of a key that is present and appends a new
    one. *)
Fixpoint set (k : string) (v : V) (m : t) : t :=
  match m with
  | [] => [(k, v)]
  | (k', v') :: m' =>
      if decide (k = k') then (k, v) :: m' else (k', v') :: set k v m'
  end.

Definition delete (k : string) (m : t) : t :=
  filter (λ p, p.1 ≠ k) m.

Definition values (m : t) : list V := m.*2.

Definition keys (m : t) : list string := m.*1.

Definition size (m : t) : Z := Z.of_nat (length m).
End ordered.
Arguments t : clear implicits.
End JSMap.

(** ** JavaScript numbers produced by a division *)

Inductive jsnum :=
| Fin (q : Qc)
| PosInfinity
| NegInfinity
| NaN.

(** [a / b] for two integers, with the IEEE results of a zero divisor. *)
Definition js_div (a b : Z) : jsnum :=
  if decide (b = 0) then
    if decide (a = 0) then NaN
    else if decide (0 < a) then PosInfinity else NegInfinity
  else Fin (Qc_of_Z a / Qc_of_Z b)%Qc.

(** [x * 100]. *)
Definition js_times100 (x : jsnum) : jsnum :=
  match x with
  | Fin q => Fin (q * Qc_of_Z 100)%Qc
  | PosInfinity => PosInfinity
  | NegInfinity => NegInfinity
  | NaN => NaN
  end.


Definition hundred : jsnum := Fin (Qc_of_Z 100).

(** ** Data model of the room (part_002) *)

Definition CHUNK_SIZE : Z := 65536.

Record FileMetadata := {
  meta_name : string;
  meta_size : Z;
  meta_type : string;
  meta_senderId : string;
  meta_senderName : string;
  meta_fileId : string
}.

Record RoomUser := {
  user_peerId : string;
  user_name : string
}.

Inductive PeerData :=
| MJoin (name peerId : string)
| MUserList (payload : list RoomUser)
| MUserJoined (payload : RoomUser)
| MUserLeft (peerId : string)
| MMetadata (payload : FileMetadata)
| MChunk (payload : list byte) (index totalChunks : Z) (fileId : string)
| MEnd (fileId : string).

(** [new Blob(parts, {type})]: the parts in order, concatenated. *)
Record Blob := {
  blob_bytes : list byte;
  blob_type : string
}.

Definition newBlob (parts : list (list byte)) (ty : string) : Blob :=
  {| blob_bytes := concat parts; blob_type := ty |}.

Definition byteLength (b : list byte) : Z := Z.of_nat (length b).

(** [downloadUrl] is an object URL; it is modelled by the blob it names. *)
Record ReceivedFile := {
  metadata : FileMetadata;
  progress : jsnum;
  chunks : list (list byte);
  receivedSize : Z;
  downloadUrl : option Blob;
  completed : bool;
  toastShown : option bool;
  timestamp : Z;
  completedAt : option Z
}.

Record DataConnection := {
  conn_open : bool
}.

Record RoomState := {
  myPeerIdRef : option string;
  myNameRef : string;
  isJoined : bool;
  users : list RoomUser;
  usersRef : list RoomUser;
  receivedFiles : gmap string ReceivedFile;
  connectionsRef : JSMap.t DataConnection;
  status : string
}.

Inductive Effect :=
| Send (to : string) (data : PeerData)
| Connect (peerId : string)
| Close (peerId : string)
| FetchDelete (roomId peerId : string)
| Toast (title : string).

(** A string is truthy when it is not empty. *)
Definition truthy (s : string) : bool := bool_decide (s ≠ "").

Definition truthy_opt (s : option string) : bool :=
  match s with Some s => truthy s | None => false end.

(** ** [broadcastToOthers] *)

Definition broadcastToOthers (conns : JSMap.t DataConnection)
    (data : PeerData) (excludePeerId : option string) : list Effect :=
  omap (λ '(peerId, conn),
          if bool_decide (Some peerId ≠ excludePeerId) && conn_open conn
          then Some (Send peerId data) else None) conns.

(** ** [handleData] *)

Definition find_user (peerId : string) (l : list RoomUser) : option RoomUser :=
  List.find (λ u, bool_decide (user_peerId u = peerId)) l.

(** [setUsers] with an updater that also stores its result in [usersRef]. *)
Definition set_users (updated : list RoomUser) (st : RoomState) : RoomState :=
  {| myPeerIdRef := myPeerIdRef st; myNameRef := myNameRef st;
     isJoined := isJoined st; users := updated; usersRef := updated;
     receivedFiles := receivedFiles st;
     connectionsRef := connectionsRef st; status := status st |}.

Definition add_if_absent (newUser : RoomUser) (st : RoomState) : RoomState :=
  match find_user (user_peerId newUser) (users st) with
  | None => set_users (users st ++ [newUser]) st
  | Some _ => st
  end.

Definition set_connections (c : JSMap.t DataConnection) (st : RoomState)
    : RoomState :=
  {| myPeerIdRef := myPeerIdRef st; myNameRef := myNameRef st;
     isJoined := isJoined st; users := users st; usersRef := usersRef st;
     receivedFiles := receivedFiles st;
     connectionsRef := c; status := status st |}.

Definition set_receivedFiles (m : gmap string ReceivedFile) (st : RoomState)
    : RoomState :=
  {| myPeerIdRef := myPeerIdRef st; myNameRef := myNameRef st;
     isJoined := isJoined st; users := users st; usersRef := usersRef st;
     receivedFiles := m;
     connectionsRef := connectionsRef st; status := status st |}.

(** The merge of a user list: a fresh [Map] keyed by peer id receives the
    known users, then the listed ones. *)
Definition put_user (merged : JSMap.t RoomUser) (u : RoomUser)
    : JSMap.t RoomUser :=
  JSMap.set (user_peerId u) u merged.

Definition merge_users (prev userList : list RoomUser) : list RoomUser :=
  let merged := foldl put_user JSMap.empty prev in
  let merged := foldl put_user merged userList in
  JSMap.values merged.

(** Every binding of the merge buffer is filed under the peer id of its
    user. *)
Definition keyed (m : JSMap.t RoomUser) : Prop :=
  Forall (λ p, p.1 = user_peerId p.2) m.

(** The entry created by a [metadata] message. *)
Definition newFile (now : Z) (metadata : FileMetadata) : ReceivedFile :=
  {| metadata := metadata; progress := Fin (Qc_of_Z 0); chunks := [];
     receivedSize := 0; downloadUrl := None; completed := false;
     toastShown := None; timestamp := now; completedAt := None |}.

(** The percentage [received / size * 100]. *)
Definition percent (received size : Z) : jsnum :=
  js_times100 (js_div received size).

(** [updatedFile]: the entry after one more chunk. *)
Definition updatedFile (file : ReceivedFile) (chunk : list byte)
    : ReceivedFile :=
  {| metadata := metadata file;
     progress := percent (receivedSize file + byteLength chunk)
                         (meta_size (metadata file));
     chunks := chunks file ++ [chunk];
     receivedSize := receivedSize file + byteLength chunk;
     downloadUrl := downloadUrl file;
     completed := completed file;
     toastShown := toastShown file;
     timestamp := timestamp file;
     completedAt := completedAt file |}.

(** The entry stored by an [end] message. *)
Definition sealedFile (now : Z) (file : ReceivedFile) : ReceivedFile :=
  {| metadata := metadata file;
     progress := hundred;
     chunks := chunks file;
     receivedSize := receivedSize file;
     downloadUrl :=
       Some (newBlob (chunks file) (meta_type (metadata file)));
     completed := true;
     toastShown := toastShown file;
     timestamp := timestamp file;
     completedAt := Some now |}.

Definition handleData (now : Z) (st : RoomState) (data : PeerData)
    : RoomState * list Effect :=
  match data with
  | MJoin name peerId =>
      (add_if_absent {| user_peerId := peerId; user_name := name |} st, [])
  | MUserList payload =>
      let userList :=
        filter (λ u, Some (user_peerId u) ≠ myPeerIdRef st) payload in
      (set_users (merge_users (users st) userList) st, [])
  | MUserJoined newUser =>
      (add_if_absent newUser st,
       if negb (JSMap.has (user_peerId newUser) (connectionsRef st))
          && bool_decide (Some (user_peerId newUser) ≠ myPeerIdRef st)
       then [Connect (user_peerId newUser)] else [])
  | MUserLeft peerId =>
      let st1 :=
        set_users (filter (λ u, user_peerId u ≠ peerId) (users st)) st in
      match JSMap.get peerId (connectionsRef st) with
      | Some _ =>
          (set_connections (JSMap.delete peerId (connectionsRef st)) st1,
           [Close peerId])
      | None => (st1, [])
      end
  | MMetadata metadata =>
      match receivedFiles st !! meta_fileId metadata with
      | Some existing =>
          if completed existing then (st, [])
          else (set_receivedFiles (receivedFiles st) st, [])
      | None =>
          (set_receivedFiles
             (<[meta_fileId metadata := newFile now metadata]>
                (receivedFiles st)) st, [])
      end
  | MChunk chunk _ _ fileId =>
      match receivedFiles st !! fileId with
      | Some file =>
          if completed file then (st, [])
          else
            (set_receivedFiles
               (<[fileId := updatedFile file chunk]> (receivedFiles st)) st,
             [])
      | None => (st, [])
      end
  | MEnd fileId =>
      match receivedFiles st !! fileId with
      | Some file =>
          if completed file then (st, [])
          else
            (set_receivedFiles
               (<[fileId := sealedFile now file]> (receivedFiles st)) st,
             [])
      | None => (st, [])
      end
  end.

(** Delivery of a sequence of messages to one room; [clock i] is the value
    of [Date.now()] while the [i]-th message is handled. *)
Fixpoint deliver (clock : nat → Z) (i : nat) (st : RoomState)
    (msgs : list PeerData) : RoomState :=
  match msgs with
  | [] => st
  | m :: msgs' => deliver clock (S i) (handleData (clock i) st m).1 msgs'
  end.

(** The message is a [metadata], [chunk] or [end] for [fileId]. *)
Definition carries (data : PeerData) (fileId : string) : Prop :=
  match data with
  | MMetadata metadata => meta_fileId metadata = fileId
  | MChunk _ _ _ f => f = fileId
  | MEnd f => f = fileId
  | _ => False
  end.

(** What [handleData] does to the entry of one file id, read off its three
    transfer branches: [None] is an unknown file id. *)
Definition receive (now : Z) (data : PeerData) (fileId : string)
    (entry : option ReceivedFile) : option ReceivedFile :=
  match data with
  | MMetadata metadata =>
      if decide (meta_fileId metadata = fileId) then
        match entry with
        | Some existing => Some existing
        | None => Some (newFile now metadata)
        end
      else entry
  | MChunk chunk _ _ f =>
      if decide (f = fileId) then
        match entry with
        | Some file =>
            if completed file then Some file else Some (updatedFile file chunk)
        | None => None
        end
      else entry
  | MEnd f =>
      if decide (f = fileId) then
        match entry with
        | Some file =>
            if completed file then Some file else Some (sealedFile now file)
        | None => None
        end
      else entry
  | _ => entry
  end.

Fixpoint receive_all (clock : nat → Z) (i : nat) (msgs : list PeerData)
    (fileId : string) (entry : option ReceivedFile) : option ReceivedFile :=
  match msgs with
  | [] => entry
  | m :: msgs' =>
      receive_all clock (S i) msgs' fileId (receive (clock i) m fileId entry)
  end.

(** The payloads of the [chunk] messages of a trace, in order. *)
Definition sent_chunks (msgs : list PeerData) : list (list byte) :=
  omap (λ m, match m with MChunk chunk _ _ _ => Some chunk | _ => None end)
       msgs.

Definition chunk_msgs (fileId : string) (cs : list (list byte))
    : list PeerData :=
  (λ c, MChunk c 0 0 fileId) <$> cs.

(** The states of the room as far as received files are concerned: a room
    starts, and is left, with an empty [receivedFiles]. *)
Inductive reachable : RoomState → Prop :=
| reachable_init st : receivedFiles st = ∅ → reachable st
| reachable_data now st data :
    reachable st → reachable (handleData now st data).1.

(** ** [sendSingleFile] *)

Record File := {
  file_name : string;
  file_type : string;
  file_bytes : list byte
}.

Definition file_size (f : File) : Z := byteLength (file_bytes f).

(** [Blob.slice(start, end)]: a negative index counts from the end, both
    indices are clamped to the blob. *)
Definition relative_index (size i : Z) : Z :=
  if decide (i < 0) then Z.max (size + i) 0 else Z.min i size.

Definition blob_slice (data : list byte) (start end_ : Z) : list byte :=
  let s := relative_index (byteLength data) start in
  let e := relative_index (byteLength data) end_ in
  take (Z.to_nat (e - s)) (drop (Z.to_nat s) data).

(** The read loop [readSlice]/[onload]; the result is the sequence of
    payloads handed to [broadcastToOthers]. [readOk o] tells whether the
    read started at offset [o] fires [onload] (otherwise [onerror], which
    stops the transfer without an [end]). The loop has no bound in the
    source; [fuel] counts the reads, [None] means the fuel ran out. *)
Fixpoint readSlice (fuel : nat) (readOk : Z → bool) (file : File)
    (fileId : string) (o : Z) : option (list PeerData) :=
  match fuel with
  | O => None
  | S fuel' =>
      if readOk o then
        let chunk := blob_slice (file_bytes file) o (o + CHUNK_SIZE) in
        let offset := o + byteLength chunk in
        if decide (offset < file_size file) then
          (MChunk chunk 0 0 fileId ::.)
            <$> readSlice fuel' readOk file fileId offset
        else Some [MChunk chunk 0 0 fileId; MEnd fileId]
      else Some []
  end.

Definition make_fileId (myPeerId : string) (now : Z) (file : File)
    (existingFileId : option string) : string :=
  match existingFileId with
  | Some id => if truthy id then id
               else myPeerId +:+ "_" +:+ pretty now +:+ "_" +:+ file_name file
  | None => myPeerId +:+ "_" +:+ pretty now +:+ "_" +:+ file_name file
  end.

Definition make_metadata (myPeerId myName : string) (file : File)
    (fileId : string) : FileMetadata :=
  {| meta_name := file_name file; meta_size := file_size file;
     meta_type := file_type file; meta_senderId := myPeerId;
     meta_senderName := myName; meta_fileId := fileId |}.

(** The broadcasts of one call of [sendSingleFile]. The sent-files history
    and the toasts, which the flag [isResend] selects, are display state
    of the sender and are left out. *)
Definition sendSingleFile (myPeerId : option string) (myName : string)
    (conns : JSMap.t DataConnection) (now : Z) (readOk : Z → bool)
    (file : File) (existingFileId : option string)
    : option (list PeerData) :=
  match myPeerId with
  | Some me =>
      if negb (truthy me) || negb (truthy myName) then Some []
      else if decide (JSMap.size conns = 0) then Some []
      else
        let fileId := make_fileId me now file existingFileId in
        (MMetadata (make_metadata me myName file fileId) ::.)
          <$> readSlice (S (length (file_bytes file))) readOk file fileId 0
  | None => Some []
  end.

(** The shape of a trace of [sendSingleFile]: the metadata, then chunks
    of at most [CHUNK_SIZE] bytes that make up the file and an [end], or,
    when a read fails, chunks that make up a part of the file and
    nothing more. *)
Inductive transfer_trace (readOk : Z → bool) (file : File)
    (metadata : FileMetadata) : list PeerData → Prop :=
| trace_complete cs :
    Forall (λ c, byteLength c ≤ CHUNK_SIZE) cs →
    concat cs = file_bytes file →
    transfer_trace readOk file metadata
      (MMetadata metadata :: chunk_msgs (meta_fileId metadata) cs
         ++ [MEnd (meta_fileId metadata)])
| trace_aborted cs o :
    Forall (λ c, byteLength c ≤ CHUNK_SIZE) cs →
    readOk o = false →
    concat cs `prefix_of` file_bytes file →
    transfer_trace readOk file metadata
      (MMetadata metadata :: chunk_msgs (meta_fileId metadata) cs).

(** ** [handleLeaveRoom] *)

Inductive FetchOutcome :=
| Resolved (status : Z)
| Rejected.

(** The handler is taken as one step: no other event of the room is
    interleaved while the request to the registry is awaited.
    [conn.close()] is recorded as a [Close] effect; the [close] event it
    raises is a later event of the room. *)
Definition handleLeaveRoom (roomId : string) (fetch : FetchOutcome)
    (st : RoomState) : RoomState * list Effect :=
  match myPeerIdRef st with
  | Some me =>
      if truthy me then
        let notify :=
          broadcastToOthers (connectionsRef st) (MUserLeft me) None in
        match fetch with
        | Resolved _ =>
            ({| myPeerIdRef := myPeerIdRef st; myNameRef := myNameRef st;
                isJoined := false; users := []; usersRef := usersRef st;
                receivedFiles := ∅; connectionsRef := JSMap.empty;
                status := "Left room" |},
             notify ++ [FetchDelete roomId me]
               ++ (Close <$> JSMap.keys (connectionsRef st))
               ++ [Toast "Left Room"])
        | Rejected =>
            (st, notify ++ [FetchDelete roomId me; Toast "Error"])
        end
      else (st, [])
  | None => (st, [])
  end.

(** ** The single-peer receiver (Receiver.tsx) *)

Module Receiver.

Record FileMetadata := {
  name : string;
  size : Z;
  type : string
}.

Inductive PeerData :=
| Metadata (payload : FileMetadata)
| Chunk (payload : list byte) (index totalChunks : Z)
| End_.

Record State := {
  fileInfoRef : option FileMetadata;
  receivedChunksRef : list (list byte);
  receivedSizeRef : Z;
  progress : jsnum;
  downloadUrl : option Blob;
  isReceiving : bool;
  status : string
}.

Definition onData (st : State) (peerData : PeerData) : State :=
  match peerData with
  | Metadata metadata =>
      {| fileInfoRef := Some metadata; receivedChunksRef := [];
         receivedSizeRef := 0; progress := Fin (Qc_of_Z 0);
         downloadUrl := None; isReceiving := true;
         status := "Receiving " +:+ name metadata +:+ "..." |}
  | Chunk chunk _ _ =>
      {| fileInfoRef := fileInfoRef st;
         receivedChunksRef := receivedChunksRef st ++ [chunk];
         receivedSizeRef := receivedSizeRef st + byteLength chunk;
         progress :=
           match fileInfoRef st with
           | Some info =>
               percent (receivedSizeRef st + byteLength chunk) (size info)
           | None => progress st
           end;
         downloadUrl := downloadUrl st; isReceiving := isReceiving st;
         status := status st |}
  | End_ =>
      match fileInfoRef st with
      | Some info =>
          {| fileInfoRef := None;
             receivedChunksRef := receivedChunksRef st;
             receivedSizeRef := receivedSizeRef st;
             progress := progress st;
             downloadUrl := Some (newBlob (receivedChunksRef st) (type info));
             isReceiving := false;
             status := "File received! Click to download." |}
      | None => st
      end
  end.

End Receiver.

(** ** The peer registry (route.ts) *)

Record PeerEntry := {
  entry_peerId : string;
  entry_name : string;
  updatedAt : Z
}.

Abbreviation Registry := (gmap string (JSMap.t PeerEntry)).

Definition stale (now : Z) (entry : PeerEntry) : Prop :=
  now - updatedAt entry > 1000 * 60 * 60.

#[global] Instance stale_dec now entry : Decision (stale now entry).
Proof. unfold stale. apply _. Defined.

(** The callback of [roomPeers.forEach]: a stale entry is deleted by its
    key. *)
Definition prune_step (now : Z) (roomPeers : JSMap.t PeerEntry)
    (p : string * PeerEntry) : JSMap.t PeerEntry :=
  let '(key, entry) := p in
  if decide (stale now entry) then JSMap.delete key roomPeers else roomPeers.

Definition prune_peers (now : Z) (roomPeers : JSMap.t PeerEntry)
    : JSMap.t PeerEntry :=
  foldl (prune_step now) roomPeers roomPeers.

Definition pruneRoom (now : Z) (roomId : string) (registry : Registry)
    : Registry :=
  match registry !! roomId with
  | None => registry
  | Some roomPeers =>
      let roomPeers' := prune_peers now roomPeers in
      if decide (JSMap.size roomPeers' = 0) then delete roomId registry
      else <[roomId := roomPeers']> registry
  end.

Inductive ResponseBody :=
| PeersBody (peers : list PeerEntry)
| ErrorBody (error : string).

Record Response := {
  resp_status : Z;
  resp_body : ResponseBody
}.

(** [NextResponse.json(body)] answers with status 200 unless one is given. *)
Definition json (body : ResponseBody) (status : option Z) : Response :=
  {| resp_status := default 200 status; resp_body := body |}.

(** The [peers] array of a response ([[]] for an error body). *)
Definition response_peers (r : Response) : list PeerEntry :=
  match resp_body r with
  | PeersBody peers => peers
  | ErrorBody _ => []
  end.

Definition room_values (roomId : string) (registry : Registry)
    : list PeerEntry :=
  match registry !! roomId with
  | Some roomPeers => JSMap.values roomPeers
  | None => []
  end.

Definition GET (now : Z) (roomId : string) (registry : Registry)
    : Registry * Response :=
  let registry' := pruneRoom now roomId registry in
  (registry', json (PeersBody (room_values roomId registry')) None).

Definition POST (now : Z) (roomId : string)
    (peerId name : option string) (registry : Registry)
    : Registry * Response :=
  match peerId, name with
  | Some p, Some n =>
      if negb (truthy p) || negb (truthy n) then
        (registry, json (ErrorBody "peerId and name are required") (Some 400))
      else
        let roomPeers := default JSMap.empty (registry !! roomId) in
        let roomPeers' :=
          JSMap.set p {| entry_peerId := p; entry_name := n;
                         updatedAt := now |} roomPeers in
        (<[roomId := roomPeers']> registry,
         json (PeersBody (JSMap.values roomPeers')) None)
  | _, _ =>
      (registry, json (ErrorBody "peerId and name are required") (Some 400))
  end.

Definition DELETE (roomId : string) (peerId : option string)
    (registry : Registry) : Registry * Response :=
  match peerId with
  | Some p =>
      if truthy p then
        let registry' :=
          match registry !! roomId with
          | Some roomPeers =>
              let roomPeers' := JSMap.delete p roomPeers in
              if decide (JSMap.size roomPeers' = 0) then delete roomId registry
              else <[roomId := roomPeers']> registry
          | None => registry
          end in
        (registry', json (PeersBody (room_values roomId registry')) None)
      else (registry, json (ErrorBody "peerId is required") (Some 400))
  | None => (registry, json (ErrorBody "peerId is required") (Some 400))
  end.

(** The registries the three handlers can produce from the empty one. *)
Inductive registry_reachable : Registry → Prop :=
| reg_init : registry_reachable ∅
| reg_GET now roomId reg :
    registry_reachable reg → registry_reachable (GET now roomId reg).1
| reg_POST now roomId peerId name reg :
    registry_reachable reg →
    registry_reachable (POST now roomId peerId name reg).1
| reg_DELETE roomId peerId reg :
    registry_reachable reg → registry_reachable (DELETE roomId peerId reg).1.

(** No room of the registry has an empty peer map. *)
Definition no_empty_room (registry : Registry) : Prop :=
  ∀ roomId roomPeers, registry !! roomId = Some roomPeers → roomPeers ≠ [].

(** ** Well-formed rooms of the registry *)

(** The keys of a room are distinct and every entry is stored under its
    own peer id. *)
Definition room_wf (roomPeers : JSMap.t PeerEntry) : Prop :=
  NoDup (JSMap.keys roomPeers) ∧
  Forall (λ p, entry_peerId p.2 = p.1) roomPeers.

Definition registry_wf (registry : Registry) : Prop :=
  ∀ roomId roomPeers, registry !! roomId = Some roomPeers → room_wf roomPeers.

(** The keys under which a sweep finds a stale entry. *)
Definition stale_keys (now : Z) (roomPeers : JSMap.t PeerEntry)
    : list string :=
  (filter (λ p, stale now p.2) roomPeers).*1.

(** ** The handlers of a connection ([setupConnectionHandlers]) *)

(** [open]: the connection is filed under the remote peer id and, when the
    local peer has an id and a name, the remote peer is sent the local
    peer followed by the roster without the remote peer. *)
Definition onOpen (remotePeerId : string) (st : RoomState)
    : RoomState * list Effect :=
  (set_connections
     (JSMap.set remotePeerId {| conn_open := true |} (connectionsRef st)) st,
   match myPeerIdRef st with
   | Some me =>
       if truthy me && truthy (myNameRef st) then
         [Send remotePeerId
            (MUserList
               ({| user_peerId := me; user_name := myNameRef st |}
                  :: filter (λ u, user_peerId u ≠ remotePeerId)
                            (usersRef st)))]
       else []
   | None => []
   end).

(** On a connection [connectToPeer] has dialled, its own [open] handler
    runs after the one above and sends the [join]. [myPeerId] and
    [myName] are the values [connectToPeer] was created with. *)
Definition onOpenOutgoing (myPeerId myName remotePeerId : string)
    (st : RoomState) : RoomState * list Effect :=
  ((onOpen remotePeerId st).1,
   (onOpen remotePeerId st).2 ++ [Send remotePeerId (MJoin myName myPeerId)]).

(** [close]: the connection and the user are dropped and the other peers
    are told. *)
Definition onClose (remotePeerId : string) (st : RoomState)
    : RoomState * list Effect :=
  let conns := JSMap.delete remotePeerId (connectionsRef st) in
  (set_users (filter (λ u, user_peerId u ≠ remotePeerId) (users st))
     (set_connections conns st),
   broadcastToOthers conns (MUserLeft remotePeerId) None).

(** [error] does what [close] does, after logging the error. *)
Definition onError (remotePeerId : string) (st : RoomState)
    : RoomState * list Effect :=
  onClose remotePeerId st.

(** ** [handleBeforeUnload] *)


(** ** [joinRoom], against the registry *)

(** A peer of a response as the room keeps it. *)
Definition to_user (entry : PeerEntry) : RoomUser :=
  {| user_peerId := entry_peerId entry; user_name := entry_name entry |}.

(** [response.ok] *)
Definition response_ok (r : Response) : bool :=
  bool_decide (200 ≤ resp_status r ≤ 299).

Definition join_failed (st : RoomState) : RoomState :=
  {| myPeerIdRef := myPeerIdRef st; myNameRef := myNameRef st;
     isJoined := false; users := users st; usersRef := usersRef st;
     receivedFiles := receivedFiles st; connectionsRef := connectionsRef st;
     status := "Failed to join room" |}.

Section joinRoom.
(** [String.prototype.trim] *)
Variable trim : string → string.

(** [joinRoom] with the two requests answered by the registry at the
    times [t1] and [t2]; [postOk] and [getOk] tell whether the request
    reaches the registry and its answer the room (otherwise [fetch]
    rejects). The state [myPeerId] is read from [myPeerIdRef], which is
    always set together with it; [myName] is the text of the name
    field. *)
Definition joinRoom (myName : string) (postOk getOk : bool) (t1 t2 : Z)
    (roomId : string) (registry : Registry) (st : RoomState)
    : Registry * RoomState * list Effect :=
  if negb (truthy (trim myName)) then (registry, st, [Toast "Name Required"])
  else
    match myPeerIdRef st with
    | Some myPeerId =>
        if negb (truthy myPeerId) then (registry, st, [Toast "Not Ready"])
        else
          let st1 :=
            {| myPeerIdRef := myPeerIdRef st; myNameRef := myName;
               isJoined := isJoined st; users := users st;
               usersRef := usersRef st; receivedFiles := receivedFiles st;
               connectionsRef := connectionsRef st;
               status := "Joining room..." |} in
          if negb postOk then (registry, join_failed st1, [Toast "Join Failed"])
          else
            let registry1 :=
              (POST t1 roomId (Some myPeerId) (Some myName) registry).1 in
            if negb getOk then
              (registry1, join_failed st1, [Toast "Join Failed"])
            else
              let '(registry2, response) := GET t2 roomId registry1 in
              if negb (response_ok response) then
                (registry2, join_failed st1, [Toast "Join Failed"])
              else
                let otherPeers :=
                  to_user <$> filter (λ peer, entry_peerId peer ≠ myPeerId)
                                     (response_peers response) in
                (registry2,
                 {| myPeerIdRef := myPeerIdRef st; myNameRef := myName;
                    isJoined := true; users := otherPeers;
                    usersRef := otherPeers;
                    receivedFiles := receivedFiles st;
                    connectionsRef := connectionsRef st;
                    status := "Joined room" |},
                 Connect <$>
                   filter (λ peerId,
                             JSMap.has peerId (connectionsRef st) = false)
                          (user_peerId <$> otherPeers))
    | None => (registry, st, [Toast "Not Ready"])
    end.
End joinRoom.

(** ** Which messages concern a file id *)

#[global] Instance carries_dec (data : PeerData) (fileId : string) :
  Decision (carries data fileId).
Proof. destruct data; simpl; apply _. Defined.

(** A [chunk] or [end] for [fileId]: a message that needs the entry of the
    file to exist. *)
Definition continues (data : PeerData) (fileId : string) : Prop :=
  match data with
  | MChunk _ _ _ f => f = fileId
  | MEnd f => f = fileId
  | _ => False
  end.

(** ** The single-peer sender (Sender.tsx, part_001) *)

Module Sender.

(** The messages [sendFile] builds: the chunk carries its payload only. *)
Inductive Message :=
| Metadata (name : string) (size : Z) (type : string)
| Chunk (payload : list byte)
| End_.

(** The read loop of [sendFile], with the same chunk size as the room.
    [readOk o] tells whether the read at offset [o] fires [onload];
    [connOpen o] is [connRef.current?.open] when it does. The result is
    the sequence of messages handed to [send], which is taken not to
    throw; [fuel] bounds the reads as in the room's loop. *)
Fixpoint readSlice (fuel : nat) (readOk connOpen : Z → bool) (file : File)
    (o : Z) : option (list Message) :=
  match fuel with
  | O => None
  | S fuel' =>
      if readOk o then
        let chunk := blob_slice (file_bytes file) o (o + CHUNK_SIZE) in
        if connOpen o then
          let offset := o + byteLength chunk in
          if decide (offset < file_size file) then
            (Chunk chunk ::.) <$> readSlice fuel' readOk connOpen file offset
          else Some [Chunk chunk; End_]
        else Some []
      else Some []
  end.

(** [sendFile fileToSend conn]; [connReady] is [conn && conn.open]. *)
Definition sendFile (connReady : bool) (readOk connOpen : Z → bool)
    (file : File) : option (list Message) :=
  if negb connReady then Some []
  else
    (Metadata (file_name file) (file_size file) (file_type file) ::.)
      <$> readSlice (S (length (file_bytes file))) readOk connOpen file 0.

End Sender.

(** A message of the sender as the receiver reads it. The fields [index]
    and [totalChunks] of the receiver's type are not set by the sender;
    [ix] and [tot] stand for what the receiver finds there. *)
Definition on_wire (ix tot : Z) (m : Sender.Message) : Receiver.PeerData :=
  match m with
  | Sender.Metadata name size type =>
      Receiver.Metadata
        {| Receiver.name := name; Receiver.size := size;
           Receiver.type := type |}
  | Sender.Chunk payload => Receiver.Chunk payload ix tot
  | Sender.End_ => Receiver.End_
  end.

(** ** The sender's history: [sentFiles] (part_002) *)

(** [downloadUrl] of a sent file is the empty string until the transfer is
    over and an object URL afterwards. An object URL is modelled by the blob
    it names, as for a received file; [None] stands for the empty string. *)
Record SentFile := {
  sent_metadata : FileMetadata;
  sent_downloadUrl : option Blob;
  sent_timestamp : Z;
  sent_blob : option Blob;
  sent_progress : option jsnum;
  sent_completed : option bool
}.

(** [new Blob([file], { type: file.type })]. *)
Definition file_blob (file : File) : Blob :=
  newBlob [file_bytes file] (file_type file).

(** [prev.map((f) => f.metadata.fileId === fileId ? { ...f, progress } : f)]. *)
Definition set_sent_progress (fileId : string) (progress : jsnum)
    (prev : list SentFile) : list SentFile :=
  (λ f, if decide (meta_fileId (sent_metadata f) = fileId)
        then {| sent_metadata := sent_metadata f;
                sent_downloadUrl := sent_downloadUrl f;
                sent_timestamp := sent_timestamp f;
                sent_blob := sent_blob f;
                sent_progress := Some progress;
                sent_completed := sent_completed f |}
        else f) <$> prev.

(** [prev.map((f) => f.metadata.fileId === fileId
      ? { ...f, downloadUrl, progress: 100, completed: true } : f)]. *)
Definition set_sent_completed (fileId : string) (downloadUrl : Blob)
    (prev : list SentFile) : list SentFile :=
  (λ f, if decide (meta_fileId (sent_metadata f) = fileId)
        then {| sent_metadata := sent_metadata f;
                sent_downloadUrl := Some downloadUrl;
                sent_timestamp := sent_timestamp f;
                sent_blob := sent_blob f;
                sent_progress := Some hundred;
                sent_completed := Some true |}
        else f) <$> prev.

(** The updates of [sentFiles] made by the read loop of [sendSingleFile]:
    the same loop as [readSlice], followed for the state [sentFiles]
    instead of the broadcasts. *)
Fixpoint readSlice_sentFiles (fuel : nat) (readOk : Z → bool)
    (isResend : bool) (file : File) (fileId : string) (o : Z)
    (prev : list SentFile) : option (list SentFile) :=
  match fuel with
  | O => None
  | S fuel' =>
      if readOk o then
        let chunk := blob_slice (file_bytes file) o (o + CHUNK_SIZE) in
        let offset := o + byteLength chunk in
        let progress := percent offset (file_size file) in
        let prev1 :=
          if negb isResend then set_sent_progress fileId progress prev
          else prev in
        if decide (offset < file_size file) then
          readSlice_sentFiles fuel' readOk isResend file fileId offset prev1
        else
          Some (if negb isResend
                then set_sent_completed fileId (file_blob file) prev1
                else prev1)
      else Some prev
  end.

(** [sentFiles] after one call of [sendSingleFile] has run its course;
    [now] is the [Date.now()] of the file id, [t] the one of the entry. *)
Definition sendSingleFile_sentFiles (myPeerId : option string)
    (myName : string) (conns : JSMap.t DataConnection) (now t : Z)
    (readOk : Z → bool) (file : File) (isResend : bool)
    (existingFileId : option string) (prev : list SentFile)
    : option (list SentFile) :=
  match myPeerId with
  | Some me =>
      if negb (truthy me) || negb (truthy myName) then Some prev
      else if decide (JSMap.size conns = 0) then Some prev
      else
        let fileId := make_fileId me now file existingFileId in
        let metadata := make_metadata me myName file fileId in
        let prev0 :=
          if negb isResend then
            {| sent_metadata := metadata; sent_downloadUrl := None;
               sent_timestamp := t; sent_blob := Some (file_blob file);
               sent_progress := Some (Fin (Qc_of_Z 0));
               sent_completed := Some false |} :: prev
          else prev in
        readSlice_sentFiles (S (length (file_bytes file))) readOk isResend
          file fileId 0 prev0
  | None => Some prev
  end.

(** No entry of the history has the file id [fileId]. *)
Definition sent_fresh (fileId : string) (prev : list SentFile) : Prop :=
  Forall (λ f, meta_fileId (sent_metadata f) ≠ fileId) prev.

(** ** [historyItems] (part_002) *)

From Stdlib Require Import Sorting.Sorted.

Module History.

Inductive Direction := received | sent.

Record Item := {
  id : string;
  direction : Direction;
  item_name : string;
  item_size : Z;
  peerName : string;
  item_downloadUrl : option Blob;
  item_progress : jsnum;
  item_completed : bool;
  item_timestamp : Z;
  item_file : ReceivedFile + SentFile
}.

Definition receivedItem (entry : string * ReceivedFile) : Item :=
  let '(key, file) := entry in
  {| id := "recv-" +:+ key;
     direction := received;
     item_name := meta_name (metadata file);
     item_size := meta_size (metadata file);
     peerName := meta_senderName (metadata file);
     item_downloadUrl := downloadUrl file;
     item_progress := progress file;
     item_completed := completed file;
     item_timestamp := default (timestamp file) (completedAt file);
     item_file := inl file |}.

Definition sentItem (index : nat) (file : SentFile) : Item :=
  {| id := "sent-"
           +:+ (if truthy (meta_fileId (sent_metadata file))
                then meta_fileId (sent_metadata file)
                else meta_name (sent_metadata file))
           +:+ "-" +:+ pretty index;
     direction := sent;
     item_name := meta_name (sent_metadata file);
     item_size := meta_size (sent_metadata file);
     peerName := "Everyone";
     item_downloadUrl := sent_downloadUrl file;
     item_progress := default hundred (sent_progress file);
     item_completed := default true (sent_completed file);
     item_timestamp := sent_timestamp file;
     item_file := inr file |}.

(** [Array.prototype.sort] with the comparator
    [(a, b) => b.timestamp - a.timestamp]: the sort is stable and puts [a]
    before [b] when the comparator is negative. It is modelled by an
    insertion sort that puts an item before the first one that is not
    newer, filling the result from the last item of the array. *)
Fixpoint insert_item (x : Item) (l : list Item) : list Item :=
  match l with
  | [] => [x]
  | y :: l' =>
      if decide (item_timestamp y - item_timestamp x ≤ 0) then x :: y :: l'
      else y :: insert_item x l'
  end.

Definition sort_newest_first (l : list Item) : list Item :=
  foldr insert_item [] l.

(** [receivedEntries] is [Array.from(receivedFiles.entries())]. *)
Definition historyItems (receivedEntries : list (string * ReceivedFile))
    (sentFiles : list SentFile) : list Item :=
  let receivedList := receivedItem <$> receivedEntries in
  let sentList := imap sentItem sentFiles in
  sort_newest_first (sentList ++ receivedList).

End History.

(** [x] may stand before [y] in the history. *)
Definition newer_first (x y : History.Item) : Prop :=
  History.item_timestamp y ≤ History.item_timestamp x.

(** * Properties *)

(** ** Facts about [JSMap] *)

Section JSMap_facts.
Context {V : Type}.
Implicit Types (m : JSMap.t V) (k : string) (v : V).

Lemma JSMap_get_set_eq k v m : JSMap.get k (JSMap.set k v m) = Some v.
Proof.
  induction m as [|[k' v'] m IH]; simpl.
  - by rewrite decide_True.
  - destruct (decide (k = k')) as [->|Hne]; simpl.
    + by rewrite decide_True.
    + by rewrite decide_False.
Qed.

Lemma JSMap_get_set_ne k k' v m :
  k ≠ k' → JSMap.get k' (JSMap.set k v m) = JSMap.get k' m.
Proof.
  intros Hne. induction m as [|[k0 v0] m IH]; simpl.
  - by rewrite decide_False.
  - destruct (decide (k = k0)) as [->|Hk]; simpl.
    + by rewrite !decide_False.
    + by rewrite IH.
Qed.

Lemma JSMap_get_elem k v m : JSMap.get k m = Some v → (k, v) ∈ m.
Proof.
  induction m as [|[k' v'] m IH]; simpl; [done|].
  destruct (decide (k = k')) as [->|Hne].
  - intros [= ->]. apply elem_of_cons. by left.
  - intros H. apply elem_of_cons. right. by apply IH.
Qed.

Lemma JSMap_elem_set k v m k' v' :
  (k', v') ∈ JSMap.set k v m → (k' = k ∧ v' = v) ∨ (k', v') ∈ m.
Proof.
  induction m as [|[k0 v0] m IH]; simpl.
  - rewrite list_elem_of_singleton. intros [= -> ->]. by left.
  - destruct (decide (k = k0)) as [->|Hk]; rewrite !elem_of_cons.
    + intros [[= -> ->]|Hin]; [by left|]. right. by right.
    + intros [Heq|Hin]; [right; by left|].
      destruct (IH Hin) as [?|?]; [by left|]. right. by right.
Qed.

Lemma JSMap_elem_set_ne k v m k' v' :
  k' ≠ k → (k', v') ∈ m → (k', v') ∈ JSMap.set k v m.
Proof.
  intros Hne. induction m as [|[k0 v0] m IH]; simpl.
  { by intros ?%elem_of_nil. }
  destruct (decide (k = k0)) as [->|Hk]; rewrite !elem_of_cons.
  - intros [[= -> ->]|Hin]; [done|by right].
  - intros [Heq|Hin]; [by left|]. right. by apply IH.
Qed.

Lemma JSMap_elem_set_new k v m : (k, v) ∈ JSMap.set k v m.
Proof. apply JSMap_get_elem, JSMap_get_set_eq. Qed.

Lemma JSMap_keys_set k v m k' :
  k' ∈ JSMap.keys (JSMap.set k v m) ↔ k' = k ∨ k' ∈ JSMap.keys m.
Proof.
  unfold JSMap.keys. induction m as [|[k0 v0] m IH]; simpl.
  - rewrite list_elem_of_singleton, elem_of_nil. tauto.
  - destruct (decide (k = k0)) as [->|Hk]; simpl.
    + rewrite !elem_of_cons. tauto.
    + rewrite !elem_of_cons, IH. tauto.
Qed.

Lemma JSMap_keys_set_NoDup k v m :
  NoDup (JSMap.keys m) → NoDup (JSMap.keys (JSMap.set k v m)).
Proof.
  unfold JSMap.keys. induction m as [|[k0 v0] m IH]; simpl.
  - intros _. apply NoDup_singleton.
  - rewrite NoDup_cons. intros [Hnotin Hnd].
    destruct (decide (k = k0)) as [->|Hk]; simpl.
    + by apply NoDup_cons.
    + apply NoDup_cons. split; [|by apply IH].
      intros Hin. apply (JSMap_keys_set k v m k0) in Hin.
      destruct Hin as [->|Hin]; [done|]. by apply Hnotin.
Qed.

Lemma JSMap_set_not_empty k v m : JSMap.set k v m ≠ [].
Proof.
  destruct m as [|[k0 v0] m]; simpl; [done|]. by destruct (decide (k = k0)).
Qed.

Lemma JSMap_elem_delete k m k' v' :
  (k', v') ∈ JSMap.delete k m ↔ k' ≠ k ∧ (k', v') ∈ m.
Proof. unfold JSMap.delete. by rewrite list_elem_of_filter. Qed.

Lemma JSMap_get_delete k m : JSMap.get k (JSMap.delete k m) = None.
Proof.
  unfold JSMap.delete. induction m as [|[k0 v0] m IH]; [done|].
  cbn. destruct (decide (k0 ≠ k)) as [Hne|Heq]; [|done].
  cbn. by rewrite decide_False.
Qed.

Lemma JSMap_size_0 m : JSMap.size m = 0 ↔ m = [].
Proof.
  unfold JSMap.size. destruct m; simpl; [done|]. split; [lia|done].
Qed.

Lemma JSMap_elem_values v m : v ∈ JSMap.values m ↔ ∃ k, (k, v) ∈ m.
Proof.
  unfold JSMap.values. rewrite list_elem_of_fmap. split.
  - intros [[k v'] [-> Hin]]. by exists k.
  - intros [k Hin]. by exists (k, v).
Qed.
End JSMap_facts.

(** ** The roster after a [user-list] message *)

Section roster.
Implicit Types (m : JSMap.t RoomUser) (u : RoomUser) (l : list RoomUser).

Lemma merge_users_unfold prev userList :
  merge_users prev userList =
  JSMap.values (foldl put_user (foldl put_user [] prev) userList).
Proof. reflexivity. Qed.

Lemma put_user_keyed m u : keyed m → keyed (put_user m u).
Proof.
  unfold keyed, put_user. induction m as [|[k0 v0] m IH]; simpl.
  - intros _. by apply Forall_singleton.
  - rewrite Forall_cons. intros [Hhd Htl].
    destruct (decide (user_peerId u = k0)); apply Forall_cons; auto.
Qed.

Lemma put_all_keyed l m : keyed m → keyed (foldl put_user m l).
Proof.
  revert m. induction l as [|u l IH]; intros m Hm; simpl; [done|].
  by apply IH, put_user_keyed.
Qed.

Lemma put_all_keys l m k :
  k ∈ JSMap.keys (foldl put_user m l) ↔
  k ∈ JSMap.keys m ∨ k ∈ user_peerId <$> l.
Proof.
  revert m. induction l as [|u l IH]; intros m; simpl.
  - rewrite elem_of_nil. tauto.
  - rewrite IH. unfold put_user at 1. rewrite JSMap_keys_set, elem_of_cons.
    tauto.
Qed.

Lemma put_all_NoDup l m :
  NoDup (JSMap.keys m) → NoDup (JSMap.keys (foldl put_user m l)).
Proof.
  revert m. induction l as [|u l IH]; intros m Hm; simpl; [done|].
  by apply IH, JSMap_keys_set_NoDup.
Qed.

Lemma put_all_values l m u :
  u ∈ JSMap.values (foldl put_user m l) → u ∈ JSMap.values m ∨ u ∈ l.
Proof.
  revert m. induction l as [|u0 l IH]; intros m; simpl; [by left|].
  intros [Hin|Hin]%IH; [|right; by apply elem_of_cons; right].
  apply JSMap_elem_values in Hin as [k Hin].
  apply JSMap_elem_set in Hin as [[_ ->]|Hin].
  - right. apply elem_of_cons. by left.
  - left. apply JSMap_elem_values. by exists k.
Qed.

Lemma keyed_ids m : keyed m → user_peerId <$> JSMap.values m = JSMap.keys m.
Proof.
  unfold keyed, JSMap.values, JSMap.keys.
  induction 1 as [|[k v] m Hhd _ IH]; [done|].
  rewrite !fmap_cons. simpl in Hhd. simpl. by rewrite IH, Hhd.
Qed.

Lemma merge_users_ids prev userList k :
  k ∈ user_peerId <$> merge_users prev userList ↔
  k ∈ user_peerId <$> prev ∨ k ∈ user_peerId <$> userList.
Proof.
  rewrite merge_users_unfold, keyed_ids.
  - rewrite !put_all_keys. unfold JSMap.keys. simpl. rewrite elem_of_nil.
    tauto.
  - apply put_all_keyed, put_all_keyed. constructor.
Qed.

Lemma merge_users_NoDup prev userList :
  NoDup (user_peerId <$> merge_users prev userList).
Proof.
  rewrite merge_users_unfold, keyed_ids.
  - apply put_all_NoDup, put_all_NoDup. constructor.
  - apply put_all_keyed, put_all_keyed. constructor.
Qed.

Lemma merge_users_from prev userList u :
  u ∈ merge_users prev userList → u ∈ prev ∨ u ∈ userList.
Proof.
  rewrite merge_users_unfold.
  intros [Hin|Hin]%put_all_values; [|by right].
  apply put_all_values in Hin as [Hin|Hin]; [|by left].
  unfold JSMap.values in Hin. simpl in Hin. by apply elem_of_nil in Hin.
Qed.
End roster.

(** C9. After a [user-list] message the roster is the union, by peer id,
    of the previous roster and the received list without the local peer:
    the peer id of every user known before is still in the roster, the
    peer id of every listed user other than the local peer is in it,
    every user of the new roster comes from one of the two, no peer id
    occurs twice, and [usersRef] holds the same roster. *)
Theorem user_list_merges_roster (now : Z) (st : RoomState)
    (payload : list RoomUser) :
  let st' := (handleData now st (MUserList payload)).1 in
  (∀ u, u ∈ users st → user_peerId u ∈ user_peerId <$> users st') ∧
  (∀ u, u ∈ payload → Some (user_peerId u) ≠ myPeerIdRef st →
        user_peerId u ∈ user_peerId <$> users st') ∧
  (∀ u, u ∈ users st' →
        u ∈ users st ∨ (u ∈ payload ∧ Some (user_peerId u) ≠ myPeerIdRef st)) ∧
  NoDup (user_peerId <$> users st') ∧
  usersRef st' = users st'.
Proof.
  simpl. repeat split.
  - intros u Hu. apply merge_users_ids. left. by apply list_elem_of_fmap_2.
  - intros u Hu Hself. apply merge_users_ids. right.
    apply list_elem_of_fmap_2. by apply list_elem_of_filter.
  - intros u [Hu|Hu]%merge_users_from; [by left|].
    right. apply list_elem_of_filter in Hu. tauto.
  - apply merge_users_NoDup.
Qed.

(** The merge at a concrete roster: a known user stays, a listed one is
    added, the local peer is not. *)
Lemma user_list_merges_roster_witness :
  let st := {| myPeerIdRef := Some "me"; myNameRef := "Me"; isJoined := true;
               users := [{| user_peerId := "a"; user_name := "A" |}];
               usersRef := []; receivedFiles := ∅; connectionsRef := [];
               status := "Joined room" |} in
  let payload := [{| user_peerId := "me"; user_name := "Me" |};
                  {| user_peerId := "b"; user_name := "B" |}] in
  "a" ∈ user_peerId <$> users (handleData 0 st (MUserList payload)).1 ∧
  "b" ∈ user_peerId <$> users (handleData 0 st (MUserList payload)).1.
Proof.
  intros st payload.
  destruct (user_list_merges_roster 0 st payload) as (Hold & Hnew & _).
  split.
  - apply (Hold {| user_peerId := "a"; user_name := "A" |}).
    apply elem_of_cons. by left.
  - apply (Hnew {| user_peerId := "b"; user_name := "B" |}).
    + apply elem_of_cons. right. apply elem_of_cons. by left.
    + simpl. congruence.
Defined.

(** ** The peer registry *)

Section registry.
Implicit Types (registry : Registry) (roomPeers : JSMap.t PeerEntry).
Implicit Types (entry : PeerEntry) (key roomId : string) (now : Z).

(** What a sweep over the bindings [l] leaves of [m]. *)
Lemma prune_fold_elem now (l m : JSMap.t PeerEntry) key entry :
  (key, entry) ∈ foldl (prune_step now) m l ↔
  (key, entry) ∈ m ∧ ∀ entry', (key, entry') ∈ l → ¬ stale now entry'.
Proof.
  revert m. induction l as [|[k0 e0] l IH]; intros m; simpl.
  - split; [|tauto]. intros Hin. split; [done|].
    by intros ? ?%elem_of_nil.
  - rewrite IH. destruct (decide (stale now e0)) as [Hst|Hst].
    + rewrite JSMap_elem_delete. split.
      * intros [[Hne Hin] Hl]. split; [done|].
        intros e' [[= ? ?]|Hin']%elem_of_cons; [done|by apply Hl].
      * intros [Hin Hl]. split; [split; [|done]|].
        -- intros ->. apply (Hl e0); [|done]. apply elem_of_cons. by left.
        -- intros e' Hin'. apply Hl. apply elem_of_cons. by right.
    + split.
      * intros [Hin Hl]. split; [done|].
        intros e' [[= ? ?]|Hin']%elem_of_cons; [by subst|by apply Hl].
      * intros [Hin Hl]. split; [done|].
        intros e' Hin'. apply Hl. apply elem_of_cons. by right.
Qed.

Lemma prune_peers_elem now roomPeers key entry :
  (key, entry) ∈ prune_peers now roomPeers ↔
  (key, entry) ∈ roomPeers ∧
  ∀ entry', (key, entry') ∈ roomPeers → ¬ stale now entry'.
Proof. apply prune_fold_elem. Qed.

Lemma prune_peers_fresh now roomPeers key entry :
  (key, entry) ∈ prune_peers now roomPeers → ¬ stale now entry.
Proof. intros [Hin Hall]%prune_peers_elem. by apply Hall. Qed.

Lemma pruneRoom_lookup now roomId registry :
  pruneRoom now roomId registry !! roomId =
  match registry !! roomId with
  | Some roomPeers =>
      if decide (prune_peers now roomPeers = []) then None
      else Some (prune_peers now roomPeers)
  | None => None
  end.
Proof.
  unfold pruneRoom. destruct (registry !! roomId) as [roomPeers|] eqn:E.
  - destruct (decide (JSMap.size _ = 0)) as [H0|H0].
    + apply JSMap_size_0 in H0. rewrite decide_True by done.
      apply lookup_delete_eq.
    + rewrite decide_False by (by rewrite <- JSMap_size_0).
      apply lookup_insert_eq.
  - done.
Qed.

Lemma pruneRoom_lookup_ne now roomId roomId' registry :
  roomId ≠ roomId' →
  pruneRoom now roomId registry !! roomId' = registry !! roomId'.
Proof.
  intros Hne. unfold pruneRoom. destruct (registry !! roomId); [|done].
  destruct (decide _).
  - by apply lookup_delete_ne.
  - by apply lookup_insert_ne.
Qed.

Lemma GET_peers_elem now roomId registry entry :
  entry ∈ response_peers (GET now roomId registry).2 →
  ∃ roomPeers key, registry !! roomId = Some roomPeers ∧
                   (key, entry) ∈ prune_peers now roomPeers.
Proof.
  unfold GET, room_values. simpl. rewrite pruneRoom_lookup.
  destruct (registry !! roomId) as [roomPeers|]; [|by intros ?%elem_of_nil].
  destruct (decide _); [by intros ?%elem_of_nil|].
  intros [key Hin]%JSMap_elem_values. by exists roomPeers, key.
Qed.
End registry.

(** C5. An entry of a room whose [updatedAt] lies more than one hour
    before the time of a [GET] for that room is absent from the returned
    peers, and from the room as the registry stores it afterwards; the
    answer has status 200. *)
Theorem stale_entry_absent_from_GET (now : Z) (roomId : string)
    (registry : Registry) (roomPeers : JSMap.t PeerEntry) (key : string)
    (entry : PeerEntry) :
  registry !! roomId = Some roomPeers →
  (key, entry) ∈ roomPeers →
  now - updatedAt entry > 1000 * 60 * 60 →
  (entry ∉ response_peers (GET now roomId registry).2) ∧
  (∀ roomPeers', (GET now roomId registry).1 !! roomId = Some roomPeers' →
                 (key, entry) ∉ roomPeers') ∧
  resp_status (GET now roomId registry).2 = 200.
Proof.
  intros Hroom Hin Hstale. split; [|split; [|done]].
  - intros (roomPeers0 & key0 & _ & Hkept)%GET_peers_elem.
    by apply prune_peers_fresh in Hkept.
  - intros roomPeers'. unfold GET. simpl. rewrite pruneRoom_lookup, Hroom.
    destruct (decide _); [done|]. intros [= <-] Hkept.
    by apply prune_peers_fresh in Hkept.
Qed.

(** One millisecond past the hour, the only peer of a room is gone. *)
Lemma stale_entry_absent_from_GET_witness :
  let entry := {| entry_peerId := "p1"; entry_name := "Ann";
                  updatedAt := 0 |} in
  entry ∉ response_peers (GET 3600001 "room" {["room" := [("p1", entry)]]}).2.
Proof.
  intros entry.
  refine (proj1 (stale_entry_absent_from_GET 3600001 "room"
                   {["room" := [("p1", entry)]]} [("p1", entry)] "p1" entry
                   _ _ _)).
  - apply lookup_singleton_eq.
  - apply elem_of_cons. by left.
  - simpl. lia.
Defined.

(** C10. [POST] does not prune: every entry the room holds under another
    peer id, whatever its age, is in the peers the [POST] returns and in
    the room it stores. *)
Theorem POST_keeps_other_entries (now : Z) (roomId p n : string)
    (registry : Registry) (roomPeers : JSMap.t PeerEntry) (key : string)
    (entry : PeerEntry) :
  truthy p = true → truthy n = true →
  registry !! roomId = Some roomPeers →
  (key, entry) ∈ roomPeers → key ≠ p →
  entry ∈ response_peers (POST now roomId (Some p) (Some n) registry).2 ∧
  ∃ roomPeers', (POST now roomId (Some p) (Some n) registry).1 !! roomId
                = Some roomPeers' ∧ (key, entry) ∈ roomPeers'.
Proof.
  intros Hp Hn Hroom Hin Hne. unfold POST. rewrite Hp, Hn, Hroom. simpl.
  split.
  - apply JSMap_elem_values. exists key. by apply JSMap_elem_set_ne.
  - eexists. split; [apply lookup_insert_eq|]. by apply JSMap_elem_set_ne.
Qed.

(** A peer last seen two hours ago is still listed by the [POST] of
    another peer. *)
Lemma POST_keeps_other_entries_witness :
  let old := {| entry_peerId := "p1"; entry_name := "Ann";
                updatedAt := 0 |} in
  stale 7200000 old ∧
  old ∈ response_peers
          (POST 7200000 "room" (Some "p2") (Some "Bob")
                {["room" := [("p1", old)]]}).2.
Proof.
  intros old. split; [unfold stale; simpl; lia|].
  refine (proj1 (POST_keeps_other_entries 7200000 "room" "p2" "Bob"
                   {["room" := [("p1", old)]]} [("p1", old)] "p1" old
                   _ _ _ _ _)).
  - reflexivity.
  - reflexivity.
  - apply lookup_singleton_eq.
  - apply elem_of_cons. by left.
  - discriminate.
Defined.

(** ** Status codes of [POST] and [DELETE] *)



Lemma DELETE_lookup (roomId p : string) (registry : Registry) :
  truthy p = true →
  (DELETE roomId (Some p) registry).1 !! roomId =
  match registry !! roomId with
  | Some roomPeers =>
      if decide (JSMap.delete p roomPeers = []) then None
      else Some (JSMap.delete p roomPeers)
  | None => None
  end.
Proof.
  intros Hp. unfold DELETE. rewrite Hp. simpl.
  destruct (registry !! roomId) as [roomPeers|] eqn:E; [|done].
  destruct (decide (JSMap.size _ = 0)) as [H0|H0].
  - apply JSMap_size_0 in H0. rewrite decide_True by done.
    apply lookup_delete_eq.
  - rewrite decide_False by (by rewrite <- JSMap_size_0).
    apply lookup_insert_eq.
Qed.




(** ** Rooms are never left empty *)

Section no_empty_rooms.
Implicit Types (registry : Registry).

Lemma GET_room_not_empty now roomId registry :
  (GET now roomId registry).1 !! roomId ≠ Some [].
Proof.
  unfold GET. simpl. rewrite pruneRoom_lookup.
  destruct (registry !! roomId); [|done].
  destruct (decide _); [done|]. congruence.
Qed.

Lemma DELETE_room_not_empty roomId p registry :
  truthy p = true → (DELETE roomId (Some p) registry).1 !! roomId ≠ Some [].
Proof.
  intros Hp. rewrite DELETE_lookup by done.
  destruct (registry !! roomId); [|done].
  destruct (decide _); [done|]. congruence.
Qed.

Lemma GET_no_empty_room now roomId registry :
  no_empty_room registry → no_empty_room (GET now roomId registry).1.
Proof.
  intros Hinv r roomPeers. destruct (decide (roomId = r)) as [<-|Hne].
  - intros Hr ->. by apply (GET_room_not_empty now roomId registry).
  - unfold GET. simpl. rewrite pruneRoom_lookup_ne by done. apply Hinv.
Qed.

Lemma POST_no_empty_room now roomId peerId name registry :
  no_empty_room registry →
  no_empty_room (POST now roomId peerId name registry).1.
Proof.
  intros Hinv. unfold POST.
  destruct peerId as [p|], name as [n|]; simpl; try done.
  destruct (negb (truthy p) || negb (truthy n)); simpl; [done|].
  intros r roomPeers. destruct (decide (roomId = r)) as [<-|Hne].
  - rewrite lookup_insert_eq. intros [= <-]. apply JSMap_set_not_empty.
  - rewrite lookup_insert_ne by done. apply Hinv.
Qed.

Lemma DELETE_no_empty_room roomId peerId registry :
  no_empty_room registry →
  no_empty_room (DELETE roomId peerId registry).1.
Proof.
  intros Hinv. destruct peerId as [p|]; [|done].
  destruct (truthy p) eqn:Hp; [|unfold DELETE; by rewrite Hp].
  intros r roomPeers. destruct (decide (roomId = r)) as [<-|Hne].
  - intros Hr ->. by apply (DELETE_room_not_empty roomId p registry).
  - unfold DELETE. rewrite Hp. simpl.
    destruct (registry !! roomId); [|apply Hinv].
    destruct (decide _).
    + rewrite lookup_delete_ne by done. apply Hinv.
    + rewrite lookup_insert_ne by done. apply Hinv.
Qed.
End no_empty_rooms.

(** C7. A registry produced by the handlers from the empty one holds no
    room with an empty peer map. Whatever the registry was before, the
    room a [GET] has pruned, or a [DELETE] has removed a peer from, is
    not stored empty: a room that pruning or removal empties is deleted
    from the registry. *)
Theorem registry_holds_no_empty_room :
  (∀ registry, registry_reachable registry → no_empty_room registry) ∧
  (∀ now roomId (registry : Registry),
     (GET now roomId registry).1 !! roomId ≠ Some []) ∧
  (∀ roomId p (registry : Registry), truthy p = true →
     (DELETE roomId (Some p) registry).1 !! roomId ≠ Some []) ∧
  (∀ now roomId (registry : Registry) roomPeers,
     registry !! roomId = Some roomPeers →
     prune_peers now roomPeers = [] →
     (GET now roomId registry).1 !! roomId = None) ∧
  (∀ roomId p (registry : Registry) roomPeers, truthy p = true →
     registry !! roomId = Some roomPeers →
     JSMap.delete p roomPeers = [] →
     (DELETE roomId (Some p) registry).1 !! roomId = None).
Proof.
  split; [|split; [|split; [|split]]].
  - induction 1 as [|now roomId reg _ IH|now roomId peerId name reg _ IH
                    |roomId peerId reg _ IH].
    + intros roomId roomPeers. by rewrite lookup_empty.
    + by apply GET_no_empty_room.
    + by apply POST_no_empty_room.
    + by apply DELETE_no_empty_room.
  - apply GET_room_not_empty.
  - apply DELETE_room_not_empty.
  - intros now roomId registry roomPeers Hroom Hnil. unfold GET. simpl.
    rewrite pruneRoom_lookup, Hroom. by rewrite decide_True.
  - intros roomId p registry roomPeers Hp Hroom Hnil.
    rewrite DELETE_lookup, Hroom by done. by rewrite decide_True.
Qed.

(** The last peer of a room leaves: the room is gone, not empty. *)
Lemma registry_holds_no_empty_room_witness :
  let registry := (POST 5 "room" (Some "p1") (Some "Ann") ∅).1 in
  no_empty_room (DELETE "room" (Some "p1") registry).1 ∧
  (DELETE "room" (Some "p1") registry).1 !! "room" = None.
Proof.
  intros registry.
  destruct registry_holds_no_empty_room as (Hreach & _ & _ & _ & Hdel).
  split.
  - apply Hreach. apply reg_DELETE, reg_POST, reg_init.
  - apply (Hdel "room" "p1" registry
             [("p1", {| entry_peerId := "p1"; entry_name := "Ann";
                        updatedAt := 5 |})]).
    + reflexivity.
    + apply lookup_insert_eq.
    + reflexivity.
Defined.


(** ** The receiver, one file id at a time *)

Section receiver.
Implicit Types (st : RoomState) (data : PeerData) (file : ReceivedFile).
Implicit Types (fileId : string) (now : Z) (cs : list (list byte)).

Lemma set_receivedFiles_id st : set_receivedFiles (receivedFiles st) st = st.
Proof. by destruct st. Qed.

Lemma add_if_absent_receivedFiles u st :
  receivedFiles (add_if_absent u st) = receivedFiles st.
Proof. unfold add_if_absent. by destruct (find_user _ _). Qed.

(** [handleData] acts on each file id as [receive] does. *)
Lemma handleData_lookup now st data fileId :
  receivedFiles (handleData now st data).1 !! fileId =
  receive now data fileId (receivedFiles st !! fileId).
Proof.
  destruct data as [name peerId|payload|newUser|peerId|md|chunk ix tot f|f];
    simpl.
  - by rewrite add_if_absent_receivedFiles.
  - done.
  - by rewrite add_if_absent_receivedFiles.
  - by destruct (JSMap.get peerId (connectionsRef st)).
  - destruct (decide (meta_fileId md = fileId)) as [<-|Hne].
    + destruct (receivedFiles st !! meta_fileId md) as [existing|] eqn:E;
        simpl.
      * by destruct (completed existing).
      * by rewrite lookup_insert_eq.
    + destruct (receivedFiles st !! meta_fileId md) as [existing|] eqn:E;
        simpl; [by destruct (completed existing)|].
      by rewrite lookup_insert_ne.
  - destruct (decide (f = fileId)) as [<-|Hne].
    + destruct (receivedFiles st !! f) as [file|] eqn:E; simpl; [|done].
      destruct (completed file); simpl; [done|]. by rewrite lookup_insert_eq.
    + destruct (receivedFiles st !! f) as [file|] eqn:E; simpl; [|done].
      destruct (completed file); simpl; [done|]. by rewrite lookup_insert_ne.
  - destruct (decide (f = fileId)) as [<-|Hne].
    + destruct (receivedFiles st !! f) as [file|] eqn:E; simpl; [|done].
      destruct (completed file); simpl; [done|]. by rewrite lookup_insert_eq.
    + destruct (receivedFiles st !! f) as [file|] eqn:E; simpl; [|done].
      destruct (completed file); simpl; [done|]. by rewrite lookup_insert_ne.
Qed.

Lemma deliver_lookup clock i st msgs fileId :
  receivedFiles (deliver clock i st msgs) !! fileId =
  receive_all clock i msgs fileId (receivedFiles st !! fileId).
Proof.
  revert i st. induction msgs as [|m msgs IH]; intros i st; simpl; [done|].
  by rewrite IH, handleData_lookup.
Qed.

Lemma receive_all_app clock i msgs1 msgs2 fileId entry :
  receive_all clock i (msgs1 ++ msgs2) fileId entry =
  receive_all clock (i + length msgs1) msgs2 fileId
    (receive_all clock i msgs1 fileId entry).
Proof.
  revert i entry. induction msgs1 as [|m msgs1 IH]; intros i entry; simpl.
  - by rewrite Nat.add_0_r.
  - rewrite IH. by rewrite Nat.add_succ_r.
Qed.

(** A sealed entry stays as it is, whatever arrives. *)
Lemma receive_sealed now data fileId file :
  completed file = true → receive now data fileId (Some file) = Some file.
Proof.
  intros Hc. destruct data; simpl; try done.
  - by destruct (decide _).
  - destruct (decide _); [|done]. by rewrite Hc.
  - destruct (decide _); [|done]. by rewrite Hc.
Qed.

(** In a reachable room a sealed entry shows 100. *)
Lemma sealed_shows_hundred st :
  reachable st →
  ∀ fileId file, receivedFiles st !! fileId = Some file →
                 completed file = true → progress file = hundred.
Proof.
  induction 1 as [st Hempty|now st data _ IH]; intros fileId file.
  - by rewrite Hempty, lookup_empty.
  - rewrite handleData_lookup.
    destruct (receivedFiles st !! fileId) as [old|] eqn:E.
    + specialize (IH fileId old E).
      destruct data; simpl; try (intros [= <-]; exact IH).
      * destruct (decide _); intros [= <-]; exact IH.
      * destruct (decide _); [|intros [= <-]; exact IH].
        destruct (completed old) eqn:Hold; intros [= <-].
        -- intros _. by apply IH.
        -- simpl. by rewrite Hold.
      * destruct (decide _); [|intros [= <-]; exact IH].
        destruct (completed old) eqn:Hold; intros [= <-]; [|done].
        intros _. by apply IH.
    + destruct data; simpl; try done.
      * destruct (decide _); [|done]. by intros [= <-].
      * by destruct (decide _).
      * by destruct (decide _).
Qed.
End receiver.

(** C2. When the entry of a file id is sealed, a further [metadata],
    [chunk] or [end] message for that file id leaves the room as it is
    and causes no effect: the entry keeps its chunks and byte count, and
    its progress, which is 100 in every reachable room. *)
Theorem sealed_transfer_ignores_messages (now : Z) (st : RoomState)
    (fileId : string) (file : ReceivedFile) (data : PeerData) :
  receivedFiles st !! fileId = Some file →
  completed file = true →
  carries data fileId →
  handleData now st data = (st, []) ∧
  receivedFiles (handleData now st data).1 !! fileId = Some file ∧
  (reachable st → progress file = hundred).
Proof.
  intros Hfile Hsealed Hcarries.
  assert (Hsame : handleData now st data = (st, [])).
  { destruct data; simpl in *; try done; subst; by rewrite Hfile, ?Hsealed. }
  split; [done|]. split.
  - by rewrite Hsame.
  - intros Hreach. by apply (sealed_shows_hundred st Hreach fileId).
Qed.

(** A resent chunk reaches a room that has sealed the file. *)
Lemma sealed_transfer_ignores_messages_witness :
  let md := {| meta_name := "a.bin"; meta_size := 1; meta_type := "";
               meta_senderId := "p1"; meta_senderName := "Ann";
               meta_fileId := "f1" |} in
  let file := sealedFile 9 (updatedFile (newFile 7 md) [x01]) in
  let st := {| myPeerIdRef := Some "p2"; myNameRef := "Bob"; isJoined := true;
               users := []; usersRef := []; receivedFiles := {["f1" := file]};
               connectionsRef := []; status := "Joined room" |} in
  handleData 11 st (MChunk [x01] 0 0 "f1") = (st, []).
Proof.
  intros md file st.
  refine (proj1 (sealed_transfer_ignores_messages 11 st "f1" file
                   (MChunk [x01] 0 0 "f1") _ _ _)).
  - apply lookup_singleton_eq.
  - reflexivity.
  - reflexivity.
Defined.


(** ** The sender: the traces of [sendSingleFile] *)

Section sender.
Implicit Types (file : File) (fileId : string) (cs : list (list byte)).
Implicit Types (data : list byte) (o : Z).

Lemma CHUNK_SIZE_pos : 0 < CHUNK_SIZE.
Proof. reflexivity. Qed.

Lemma byteLength_nonneg data : 0 ≤ byteLength data.
Proof. unfold byteLength. lia. Qed.

Lemma byteLength_app data1 data2 :
  byteLength (data1 ++ data2) = byteLength data1 + byteLength data2.
Proof. unfold byteLength. rewrite length_app. lia. Qed.

Lemma blob_slice_chunk data o :
  0 ≤ o ≤ byteLength data →
  blob_slice data o (o + CHUNK_SIZE) =
  take (Z.to_nat CHUNK_SIZE) (drop (Z.to_nat o) data).
Proof.
  intros Ho. pose proof CHUNK_SIZE_pos as HC. unfold blob_slice, relative_index.
  rewrite !decide_False by lia.
  destruct (decide (o + CHUNK_SIZE ≤ byteLength data)) as [Hle|Hgt].
  - f_equal; [|f_equal]; lia.
  - replace (Z.min o (byteLength data)) with o by lia.
    replace (Z.min (o + CHUNK_SIZE) (byteLength data)) with (byteLength data)
      by lia.
    rewrite !take_ge; [done| |]; rewrite length_drop; unfold byteLength in *; lia.
Qed.

Lemma byteLength_chunk data o :
  0 ≤ o ≤ byteLength data →
  byteLength (take (Z.to_nat CHUNK_SIZE) (drop (Z.to_nat o) data)) =
  Z.min CHUNK_SIZE (byteLength data - o).
Proof.
  intros Ho. pose proof CHUNK_SIZE_pos as HC. unfold byteLength in *.
  rewrite length_take, length_drop. lia.
Qed.

Lemma readSlice_step fuel readOk file fileId o :
  readOk o = true → 0 ≤ o ≤ file_size file →
  readSlice (S fuel) readOk file fileId o =
  let chunk :=
    take (Z.to_nat CHUNK_SIZE) (drop (Z.to_nat o) (file_bytes file)) in
  if decide (o + CHUNK_SIZE < file_size file) then
    (MChunk chunk 0 0 fileId ::.)
      <$> readSlice fuel readOk file fileId (o + CHUNK_SIZE)
  else Some [MChunk chunk 0 0 fileId; MEnd fileId].
Proof.
  intros Hok Ho. simpl. rewrite Hok. unfold file_size in *.
  rewrite blob_slice_chunk, byteLength_chunk by done.
  destruct (decide (o + CHUNK_SIZE < _)) as [Hlt|Hge].
  - rewrite decide_True by lia. do 2 f_equal. lia.
  - by rewrite decide_False by lia.
Qed.

Lemma chunk_msgs_cons fileId c cs :
  chunk_msgs fileId (c :: cs) = MChunk c 0 0 fileId :: chunk_msgs fileId cs.
Proof. reflexivity. Qed.

(** Every run of the read loop ends: with an [end] after chunks that
    make up the rest of the file, or, after a failed read, with chunks
    that make up a part of it. No chunk exceeds [CHUNK_SIZE]. *)
Lemma readSlice_trace readOk file fileId fuel o :
  0 ≤ o ≤ file_size file →
  (Z.to_nat (file_size file - o) < fuel)%nat →
  ∃ cs, Forall (λ c, byteLength c ≤ CHUNK_SIZE) cs ∧
        ((readSlice fuel readOk file fileId o
            = Some (chunk_msgs fileId cs ++ [MEnd fileId]) ∧
          concat cs = drop (Z.to_nat o) (file_bytes file)) ∨
         (readSlice fuel readOk file fileId o = Some (chunk_msgs fileId cs) ∧
          (∃ o', readOk o' = false) ∧
          concat cs `prefix_of` drop (Z.to_nat o) (file_bytes file))).
Proof.
  pose proof CHUNK_SIZE_pos as HC.
  revert o. induction fuel as [|fuel IH]; intros o Ho Hfuel; [lia|].
  destruct (readOk o) eqn:Hok.
  - rewrite readSlice_step by done. simpl.
    set (chunk := take _ _).
    assert (Hchunk : byteLength chunk ≤ CHUNK_SIZE).
    { subst chunk. unfold file_size in Ho. rewrite byteLength_chunk by done.
      lia. }
    destruct (decide (o + CHUNK_SIZE < file_size file)) as [Hlt|Hge].
    + destruct (IH (o + CHUNK_SIZE))
        as (cs & Hall & [[-> Hcs]|(-> & Hfail & Hcs)]);
        [lia|lia| |]; exists (chunk :: cs); (split; [by constructor|]).
      * left. split; [done|]. simpl. rewrite Hcs. subst chunk.
        replace (Z.to_nat (o + CHUNK_SIZE))
          with (Z.to_nat o + Z.to_nat CHUNK_SIZE)%nat by lia.
        rewrite <- drop_drop. apply take_drop.
      * right. split; [done|]. split; [done|]. simpl.
        replace (Z.to_nat (o + CHUNK_SIZE))
          with (Z.to_nat o + Z.to_nat CHUNK_SIZE)%nat in Hcs by lia.
        rewrite <- drop_drop in Hcs.
        rewrite <- (take_drop (Z.to_nat CHUNK_SIZE)
                              (drop (Z.to_nat o) (file_bytes file))).
        by apply prefix_app.
    + exists [chunk]. split; [by repeat constructor|].
      left. split; [done|]. simpl. rewrite app_nil_r.
      subst chunk. apply take_ge. rewrite length_drop.
      unfold file_size, byteLength in *. lia.
  - exists []. split; [constructor|]. right. simpl. rewrite Hok.
    split; [done|]. split; [by exists o|]. apply prefix_nil.
Qed.

Lemma sendSingleFile_trace me myName conns now readOk file existingFileId :
  truthy me = true → truthy myName = true → JSMap.size conns ≠ 0 →
  ∃ sent,
    sendSingleFile (Some me) myName conns now readOk file existingFileId
      = Some sent ∧
    transfer_trace readOk file
      (make_metadata me myName file (make_fileId me now file existingFileId))
      sent.
Proof.
  intros Hme Hname Hconns. unfold sendSingleFile. rewrite Hme, Hname.
  cbn [negb orb].
  rewrite decide_False by done.
  destruct (readSlice_trace readOk file
              (make_fileId me now file existingFileId)
              (S (length (file_bytes file))) 0)
    as (cs & Hall & [[-> Hcs]|(-> & [o Hfail] & Hcs)]).
  - unfold file_size, byteLength. lia.
  - unfold file_size, byteLength. lia.
  - eexists. split; [done|]. by apply trace_complete.
  - eexists. split; [done|].
    by apply (trace_aborted readOk file (make_metadata me myName file _) cs o).
Qed.

Lemma sendSingleFile_guarded myPeerId myName conns now readOk file
    existingFileId :
  truthy_opt myPeerId = false ∨ truthy myName = false ∨ JSMap.size conns = 0 →
  sendSingleFile myPeerId myName conns now readOk file existingFileId
    = Some [].
Proof.
  unfold sendSingleFile. destruct myPeerId as [me|]; simpl; [|done].
  intros [H|[H|H]].
  - by rewrite H.
  - rewrite H. simpl. by rewrite orb_true_r.
  - destruct (_ || _); [done|]. by rewrite decide_True.
Qed.

Lemma sent_chunks_chunk_msgs fileId cs tl :
  sent_chunks (chunk_msgs fileId cs ++ tl) = cs ++ sent_chunks tl.
Proof.
  induction cs as [|c cs IH]; [done|].
  change (c :: sent_chunks (chunk_msgs fileId cs ++ tl)
          = c :: (cs ++ sent_chunks tl)).
  by rewrite IH.
Qed.
End sender.


(** ** A transfer, end to end *)

Section transfer.
Implicit Types (e rf : ReceivedFile) (cs : list (list byte)).
Implicit Types (fileId : string).

Lemma updatedFile_fold e cs :
  metadata (foldl updatedFile e cs) = metadata e ∧
  completed (foldl updatedFile e cs) = completed e ∧
  chunks (foldl updatedFile e cs) = chunks e ++ cs ∧
  receivedSize (foldl updatedFile e cs)
    = receivedSize e + byteLength (concat cs) ∧
  (cs ≠ [] →
   progress (foldl updatedFile e cs)
     = percent (receivedSize (foldl updatedFile e cs))
               (meta_size (metadata e))).
Proof.
  revert e. induction cs as [|c cs IH]; intros e; simpl.
  - rewrite app_nil_r. unfold byteLength. simpl.
    split; [done|]. split; [done|]. split; [done|]. split; [lia|done].
  - destruct (IH (updatedFile e c)) as (Hm & Hc & Hch & Hrs & Hp).
    rewrite Hm, Hc, Hch, Hrs. simpl. rewrite byteLength_app.
    split; [done|]. split; [done|]. split; [by rewrite <- app_assoc|].
    split; [lia|]. intros _. destruct cs as [|c' cs].
    + simpl. unfold percent. do 2 f_equal. unfold byteLength. simpl. lia.
    + rewrite Hp by done. by rewrite Hrs.
Qed.

Lemma receive_all_chunks clock i fileId cs e :
  completed e = false →
  receive_all clock i (chunk_msgs fileId cs) fileId (Some e)
    = Some (foldl updatedFile e cs).
Proof.
  revert i e. induction cs as [|c cs IH]; intros i e He; simpl; [done|].
  rewrite decide_True by done. rewrite He. by apply IH.
Qed.

(** The entry of a file id unknown so far, after the metadata and some
    chunks. *)
Lemma receive_all_open clock i md cs :
  receive_all clock i (MMetadata md :: chunk_msgs (meta_fileId md) cs)
    (meta_fileId md) None
  = Some (foldl updatedFile (newFile (clock i) md) cs).
Proof.
  simpl. rewrite decide_True by done. by apply receive_all_chunks.
Qed.

(** The same after the [end] that follows. *)
Lemma receive_all_complete clock i md cs :
  receive_all clock i
    (MMetadata md :: chunk_msgs (meta_fileId md) cs ++ [MEnd (meta_fileId md)])
    (meta_fileId md) None
  = Some (sealedFile (clock (i + S (length cs))%nat)
            (foldl updatedFile (newFile (clock i) md) cs)).
Proof.
  rewrite app_comm_cons, receive_all_app, receive_all_open. simpl.
  rewrite decide_True by done.
  destruct (updatedFile_fold (newFile (clock i) md) cs) as (_ & -> & _).
  simpl. unfold chunk_msgs. by rewrite length_fmap.
Qed.

End transfer.




(** ** The percentage *)

Section percent.
Implicit Types (a b s : Z).


Lemma percent_fin a s :
  s ≠ 0 → percent a s = Fin (Qc_of_Z a / Qc_of_Z s * Qc_of_Z 100)%Qc.
Proof. intros Hs. unfold percent, js_div. by rewrite decide_False. Qed.

Lemma percent_zero s : s ≠ 0 → percent 0 s = Fin (Qc_of_Z 0).
Proof.
  intros Hs. rewrite percent_fin by done. f_equal.
  rewrite Z2Qc_inj_0. unfold Qcdiv. ring.
Qed.

Lemma percent_full s : s ≠ 0 → percent s s = hundred.
Proof.
  intros Hs. rewrite percent_fin by done. unfold hundred. f_equal.
  unfold Qcdiv. rewrite Qcmult_inv_r; [ring|].
  rewrite <- Z2Qc_inj_0. by intros ?%Z2Qc_inj.
Qed.



End percent.

(** ** The entry after each prefix of a transfer *)

Section prefixes.
Implicit Types (e rf : ReceivedFile) (cs : list (list byte)).
Implicit Types (fileId : string) (md : FileMetadata).




Lemma byteLength_concat_take cs j :
  byteLength (concat (take j cs)) ≤ byteLength (concat cs).
Proof.
  rewrite <- (take_drop j cs) at 2. rewrite concat_app, byteLength_app.
  pose proof (byteLength_nonneg (concat (drop j cs))). lia.
Qed.

Lemma take_chunk_msgs fileId cs j :
  take j (chunk_msgs fileId cs) = chunk_msgs fileId (take j cs).
Proof. unfold chunk_msgs. by rewrite fmap_take. Qed.

(** The entry of a transfer while it is receiving: after the metadata
    and a part [cs] of the chunks, whose bytes are within the announced
    size. *)
Lemma receiving_entry t md cs :
  byteLength (concat cs) ≤ meta_size md →
  let rf := foldl updatedFile (newFile t md) cs in
  metadata rf = md ∧
  completed rf = false ∧
  receivedSize rf = byteLength (concat cs) ∧
  receivedSize rf ≤ meta_size md ∧
  (0 < meta_size md → progress rf = percent (receivedSize rf) (meta_size md)).
Proof.
  intros Hle rf.
  destruct (updatedFile_fold (newFile t md) cs) as (Hm & Hc & _ & Hrs & Hp).
  fold rf in Hm, Hc, Hrs, Hp. simpl in *.
  repeat split; try done; try lia.
  intros Hpos. destruct cs as [|c cs]; [|by apply Hp].
  unfold rf. simpl. by rewrite percent_zero by lia.
Qed.

(** The entry after a prefix of a trace of [sendSingleFile], in a room
    that did not know the file id. *)
Lemma trace_prefix_entry clock i readOk file md sent k rf :
  transfer_trace readOk file md sent →
  meta_size md = file_size file →
  receive_all clock i (take k sent) (meta_fileId md) None = Some rf →
  metadata rf = md ∧
  receivedSize rf ≤ meta_size md ∧
  (completed rf = true → receivedSize rf = meta_size md) ∧
  (0 < meta_size md →
   progress rf = if completed rf then hundred
                 else percent (receivedSize rf) (meta_size md)).
Proof.
  intros Htrace Hsize.
  assert (Hpart : ∀ cs j, concat cs `prefix_of` file_bytes file →
            byteLength (concat (take j cs)) ≤ meta_size md).
  { intros cs j Hpre. rewrite Hsize. unfold file_size.
    pose proof (byteLength_concat_take cs j).
    apply prefix_length in Hpre. unfold byteLength in *. lia. }
  destruct k as [|j]; [destruct Htrace; done|].
  destruct Htrace as [cs Hall Hcs|cs o Hall Hfail Hcs]; rewrite firstn_cons.
  - destruct (decide (j ≤ length cs)%nat) as [Hj|Hj].
    + rewrite take_app_le by (unfold chunk_msgs; by rewrite length_fmap).
      rewrite take_chunk_msgs, receive_all_open. intros [= <-].
      destruct (receiving_entry (clock i) md (take j cs))
        as (Hm & Hc & Hrs & Hle & Hp); [apply Hpart; by rewrite Hcs|].
      rewrite Hc. repeat split; (done || lia).
    + rewrite take_ge
        by (rewrite length_app; unfold chunk_msgs; rewrite length_fmap;
            simpl; lia).
      rewrite receive_all_complete. intros [= <-].
      destruct (receiving_entry (clock i) md cs)
        as (Hm & Hc & Hrs & Hle & Hp).
      { rewrite Hcs, Hsize. done. }
      simpl. rewrite Hm, Hrs, Hcs, Hsize. repeat split; (done || lia).
  - rewrite take_chunk_msgs, receive_all_open. intros [= <-].
    destruct (receiving_entry (clock i) md (take j cs))
      as (Hm & Hc & Hrs & Hle & Hp); [by apply Hpart|].
    rewrite Hc. repeat split; (done || lia).
Qed.

Lemma reachable_deliver clock i st msgs :
  reachable st → reachable (deliver clock i st msgs).
Proof.
  revert i st. induction msgs as [|m msgs IH]; intros i st Hst; simpl; [done|].
  apply IH. by apply reachable_data.
Qed.
End prefixes.

(** C3, as the code has it. For a transfer sent by [sendSingleFile],
    complete or cut short by a failed read, into a room that did not know
    the file id: after every prefix of the trace the entry carries the
    announced size, which is the file's, [receivedSize] is at most that
    size, and it equals it once the entry is sealed. [handleData] itself
    checks no byte count. *)
Theorem transfer_byte_count (me myName : string)
    (conns : JSMap.t DataConnection) (now : Z) (readOk : Z → bool)
    (file : File) (existingFileId : option string) (clock : nat → Z)
    (i : nat) (st : RoomState) :
  truthy me = true → truthy myName = true → JSMap.size conns ≠ 0 →
  receivedFiles st !! make_fileId me now file existingFileId = None →
  ∃ sent,
    sendSingleFile (Some me) myName conns now readOk file existingFileId
      = Some sent ∧
    ∀ k rf,
      receivedFiles (deliver clock i st (take k sent))
        !! make_fileId me now file existingFileId = Some rf →
      meta_size (metadata rf) = file_size file ∧
      receivedSize rf ≤ meta_size (metadata rf) ∧
      (completed rf = true → receivedSize rf = meta_size (metadata rf)).
Proof.
  intros Hme Hname Hconns Hfresh.
  destruct (sendSingleFile_trace me myName conns now readOk file
              existingFileId Hme Hname Hconns) as (sent & Hsent & Htrace).
  exists sent. split; [done|]. intros k rf. rewrite deliver_lookup, Hfresh.
  intros Hrf.
  destruct (trace_prefix_entry clock i readOk file _ sent k rf Htrace
              eq_refl Hrf) as (Hm & Hle & Hc & _).
  rewrite Hm. simpl in *. auto.
Qed.

(** A two-byte file, followed from the first message to the last. *)
Lemma transfer_byte_count_witness :
  let file := {| file_name := "a.bin"; file_type := "";
                 file_bytes := [x01; x02] |} in
  let st := {| myPeerIdRef := Some "p2"; myNameRef := "Bob"; isJoined := true;
               users := []; usersRef := []; receivedFiles := ∅;
               connectionsRef := []; status := "Joined room" |} in
  ∃ sent,
    sendSingleFile (Some "p1") "Ann" [("p2", {| conn_open := true |})] 7
      (λ _, true) file None = Some sent ∧
    ∀ k rf,
      receivedFiles (deliver (λ _, 9) 0 st (take k sent)) !! "p1_7_a.bin"
        = Some rf →
      receivedSize rf ≤ meta_size (metadata rf).
Proof.
  intros file st.
  destruct (transfer_byte_count "p1" "Ann" [("p2", {| conn_open := true |})]
              7 (λ _, true) file None (λ _, 9) 0%nat st)
    as (sent & Hsent & Hall).
  - reflexivity.
  - reflexivity.
  - unfold JSMap.size. simpl. lia.
  - apply lookup_empty.
  - exists sent. split; [exact Hsent|].
    intros k rf Hrf. exact (proj1 (proj2 (Hall k rf Hrf))).
Defined.

(** C3 as stated fails in the rooms [handleData] can reach: a chunk
    longer than the announced size is counted, and an [end] seals an
    entry that has received fewer bytes than announced. The senders of
    this program suffice: when the second read of a file of 65537 bytes
    fails and the file is then resent under its file id, the entry, still
    receiving, takes the chunks again and is sealed with 131073 bytes. *)
Lemma byte_count_not_enforced :
  let md := {| meta_name := "a.bin"; meta_size := 1; meta_type := "";
               meta_senderId := "p1"; meta_senderName := "Ann";
               meta_fileId := "f1" |} in
  let st := {| myPeerIdRef := Some "p2"; myNameRef := "Bob"; isJoined := true;
               users := []; usersRef := []; receivedFiles := ∅;
               connectionsRef := []; status := "Joined room" |} in
  let over := deliver (λ _, 9) 0 st [MMetadata md; MChunk [x01; x02] 0 0 "f1"] in
  let short := deliver (λ _, 9) 0 st [MMetadata md; MEnd "f1"] in
  let file := {| file_name := "a.bin"; file_type := "";
                 file_bytes := replicate (Z.to_nat 65537) x00 |} in
  let conns := [("p2", {| conn_open := true |})] in
  let first :=
    default [] (sendSingleFile (Some "p1") "Ann" conns 7
                  (λ o, bool_decide (o = 0)) file None) in
  let again :=
    default [] (sendSingleFile (Some "p1") "Ann" conns 8 (λ _, true) file
                  (Some "p1_7_a.bin")) in
  let resent := deliver (λ _, 9) 0 st (first ++ again) in
  reachable over ∧
  (∃ rf, receivedFiles over !! "f1" = Some rf ∧ completed rf = false ∧
         receivedSize rf = 2 ∧ meta_size (metadata rf) = 1) ∧
  reachable short ∧
  (∃ rf, receivedFiles short !! "f1" = Some rf ∧ completed rf = true ∧
         receivedSize rf = 0 ∧ meta_size (metadata rf) = 1) ∧
  reachable resent ∧
  (length first = 2%nat ∧ length again = 4%nat) ∧
  (λ rf, (completed rf, receivedSize rf, meta_size (metadata rf)))
    <$> receivedFiles resent !! "p1_7_a.bin" = Some (true, 131073, 65537).
Proof.
  intros md st over short file conns first again resent.
  split; [apply reachable_deliver; by apply reachable_init|].
  split; [eexists; split; [unfold over; by rewrite deliver_lookup|done]|].
  split; [apply reachable_deliver; by apply reachable_init|].
  split; [eexists; split; [unfold short; by rewrite deliver_lookup|done]|].
  split; [apply reachable_deliver; by apply reachable_init|].
  split; [by vm_compute|]. by vm_compute.
Qed.




(** ** Leaving the room *)

Lemma broadcastToOthers_elem (conns : JSMap.t DataConnection)
    (data : PeerData) (peerId : string) (d : PeerData) :
  Send peerId d ∈ broadcastToOthers conns data None ↔
  d = data ∧ ∃ conn, (peerId, conn) ∈ conns ∧ conn_open conn = true.
Proof.
  unfold broadcastToOthers. rewrite list_elem_of_omap. split.
  - intros ([p conn] & Hin & Hsend). simpl in Hsend.
    destruct (conn_open conn) eqn:Hopen; [|done].
    injection Hsend as -> ->. split; [done|]. by exists conn.
  - intros [-> (conn & Hin & Hopen)]. exists (peerId, conn).
    split; [done|]. simpl. by rewrite Hopen.
Qed.

Lemma broadcastToOthers_sends (conns : JSMap.t DataConnection)
    (data : PeerData) (exclude : option string) (ef : Effect) :
  ef ∈ broadcastToOthers conns data exclude → ∃ peerId, ef = Send peerId data.
Proof.
  unfold broadcastToOthers. rewrite list_elem_of_omap.
  intros ([p conn] & _ & Hsend). destruct (_ && _); [|done].
  injection Hsend as <-. by exists p.
Qed.

(** C8, as the code has it. An explicit leave by a room whose peer id is
    set sends [user-left] with that id to exactly the open channels and
    requests the registry to delete the peer. When that request
    completes, with whatever status, every channel is closed, the channel
    set is emptied, the roster [users] and the received files are reset
    and the room is no longer joined. When the request is rejected, the
    room is left as it was, no channel is closed, and an error is
    shown. *)
Theorem leave_room (roomId : string) (fetch : FetchOutcome) (st : RoomState)
    (me : string) :
  myPeerIdRef st = Some me → truthy me = true →
  (∀ peerId d,
     Send peerId d ∈ (handleLeaveRoom roomId fetch st).2 ↔
     d = MUserLeft me ∧
     ∃ conn, (peerId, conn) ∈ connectionsRef st ∧ conn_open conn = true) ∧
  FetchDelete roomId me ∈ (handleLeaveRoom roomId fetch st).2 ∧
  (∀ status, fetch = Resolved status →
     users (handleLeaveRoom roomId fetch st).1 = [] ∧
     connectionsRef (handleLeaveRoom roomId fetch st).1 = [] ∧
     receivedFiles (handleLeaveRoom roomId fetch st).1 = ∅ ∧
     isJoined (handleLeaveRoom roomId fetch st).1 = false ∧
     ∀ peerId, Close peerId ∈ (handleLeaveRoom roomId fetch st).2 ↔
               peerId ∈ JSMap.keys (connectionsRef st)) ∧
  (fetch = Rejected →
     (handleLeaveRoom roomId fetch st).1 = st ∧
     (∀ peerId, Close peerId ∉ (handleLeaveRoom roomId fetch st).2) ∧
     Toast "Error" ∈ (handleLeaveRoom roomId fetch st).2).
Proof.
  intros Hme Htruthy. unfold handleLeaveRoom. rewrite Hme, Htruthy.
  split; [|split; [|split]].
  - intros peerId d. rewrite <- broadcastToOthers_elem.
    destruct fetch; simpl; rewrite !elem_of_app.
    + rewrite elem_of_cons, elem_of_app, list_elem_of_fmap,
        list_elem_of_singleton.
      split; [|by left].
      intros [?|[?|[(? & ? & ?)|?]]]; done.
    + rewrite elem_of_cons, list_elem_of_singleton.
      split; [|by left]. intros [?|[?|?]]; done.
  - destruct fetch; simpl; rewrite !elem_of_app; right; left.
  - intros status ->. simpl. repeat split; try done.
    + rewrite !elem_of_app, elem_of_cons, elem_of_app, list_elem_of_fmap,
        list_elem_of_singleton.
      intros [Hb|[?|[(p & [= ->] & Hin)|?]]]; try done.
      by apply broadcastToOthers_sends in Hb as [? ?].
    + intros Hin. rewrite !elem_of_app. right. apply elem_of_cons. right.
      apply elem_of_app. left. by apply list_elem_of_fmap_2.
  - intros ->. simpl. split; [done|]. split.
    + intros peerId. rewrite elem_of_app, !elem_of_cons, elem_of_nil.
      intros [Hb|[?|[?|?]]]; try done.
      by apply broadcastToOthers_sends in Hb as [? ?].
    + apply elem_of_app. right. apply elem_of_cons. right. left.
Qed.

(** A room with one open channel leaves, the registry answering. *)
Lemma leave_room_witness :
  let st := {| myPeerIdRef := Some "p1"; myNameRef := "Ann"; isJoined := true;
               users := [{| user_peerId := "p2"; user_name := "Bob" |}];
               usersRef := [{| user_peerId := "p2"; user_name := "Bob" |}];
               receivedFiles := ∅;
               connectionsRef := [("p2", {| conn_open := true |})];
               status := "Joined room" |} in
  users (handleLeaveRoom "room" (Resolved 200) st).1 = [] ∧
  connectionsRef (handleLeaveRoom "room" (Resolved 200) st).1 = [].
Proof.
  intros st.
  destruct (leave_room "room" (Resolved 200) st "p1" eq_refl eq_refl)
    as (_ & _ & Hdone & _).
  destruct (Hdone 200 eq_refl) as (Husers & Hconns & _).
  by split.
Defined.

(** C8 as stated fails: when the request to the registry is rejected,
    the peers have been told that the room left, but its roster and its
    channels are as before. *)
Lemma leave_room_rejected_keeps_roster :
  let st := {| myPeerIdRef := Some "p1"; myNameRef := "Ann"; isJoined := true;
               users := [{| user_peerId := "p2"; user_name := "Bob" |}];
               usersRef := [{| user_peerId := "p2"; user_name := "Bob" |}];
               receivedFiles := ∅;
               connectionsRef := [("p2", {| conn_open := true |})];
               status := "Joined room" |} in
  (handleLeaveRoom "room" Rejected st).2
    = [Send "p2" (MUserLeft "p1"); FetchDelete "room" "p1"; Toast "Error"] ∧
  users (handleLeaveRoom "room" Rejected st).1
    = [{| user_peerId := "p2"; user_name := "Bob" |}] ∧
  connectionsRef (handleLeaveRoom "room" Rejected st).1
    = [("p2", {| conn_open := true |})].
Proof. intros st. repeat split. Qed.

(** ** The single-peer receiver *)

(** In [Receiver.tsx] the progress is set by the chunks alone: the chunk
    that completes the announced size shows 100 while the transfer is
    still being received, and the [end] message does not touch it. *)
Lemma Receiver_progress_set_by_chunks (st : Receiver.State)
    (info : Receiver.FileMetadata) (chunk : list byte) (ix tot : Z) :
  Receiver.fileInfoRef st = Some info →
  Receiver.size info ≠ 0 →
  Receiver.receivedSizeRef st + byteLength chunk = Receiver.size info →
  let st' := Receiver.onData st (Receiver.Chunk chunk ix tot) in
  Receiver.progress st' = hundred ∧
  Receiver.downloadUrl st' = Receiver.downloadUrl st ∧
  Receiver.fileInfoRef st' = Some info ∧
  Receiver.progress (Receiver.onData st' Receiver.End_) = hundred.
Proof.
  intros Hinfo Hsize Hsum. simpl. rewrite Hinfo, Hsum. simpl.
  split; [by apply percent_full|]. by repeat split; try apply percent_full.
Qed.

(** ** More on the registry *)

Section registry_more.
Implicit Types (registry : Registry) (roomPeers m : JSMap.t PeerEntry).
Implicit Types (entry : PeerEntry) (key roomId p n : string) (now : Z).

Lemma filter_ext_in {A} (P Q : A → Prop) `{!∀ x, Decision (P x)}
    `{!∀ x, Decision (Q x)} (l : list A) :
  (∀ x, x ∈ l → P x ↔ Q x) → filter P l = filter Q l.
Proof.
  induction l as [|x l IH]; intros Hext; [done|].
  rewrite !filter_cons.
  assert (Hx : P x ↔ Q x) by (apply Hext; left).
  rewrite IH by (intros y Hy; apply Hext; by right).
  destruct (decide (P x)), (decide (Q x)); tauto.
Qed.

Lemma filter_all {A} (P : A → Prop) `{!∀ x, Decision (P x)} (l : list A) :
  (∀ x, x ∈ l → P x) → filter P l = l.
Proof.
  induction l as [|x l IH]; intros Hall; [done|].
  rewrite filter_cons_True by (apply Hall; left).
  rewrite IH; [done|]. intros y Hy. apply Hall. by right.
Qed.

Lemma JSMap_NoDup_lookup {V} (l : JSMap.t V) k v v' :
  NoDup (JSMap.keys l) → (k, v) ∈ l → (k, v') ∈ l → v = v'.
Proof.
  unfold JSMap.keys. induction l as [|[k0 v0] l IH]; simpl.
  - by intros _ ?%elem_of_nil.
  - rewrite NoDup_cons, !elem_of_cons.
    intros [Hnotin Hnd] [[= -> ->]|H1] [[= ?]|H2]; subst; try done.
    + destruct Hnotin. apply list_elem_of_fmap. by exists (k0, v').
    + destruct Hnotin. apply list_elem_of_fmap. by exists (k0, v).
    + by apply IH.
Qed.

Lemma stale_keys_cons now key entry roomPeers :
  stale_keys now ((key, entry) :: roomPeers)
  = if decide (stale now entry) then key :: stale_keys now roomPeers
    else stale_keys now roomPeers.
Proof.
  unfold stale_keys. cbn. by destruct (decide (stale now entry)).
Qed.

(** A sweep deletes exactly the bindings of the keys that have a stale
    entry. *)
Lemma prune_fold_filter now (l acc : JSMap.t PeerEntry) :
  foldl (prune_step now) acc l
  = filter (λ q, q.1 ∉ stale_keys now l) acc.
Proof.
  revert acc. induction l as [|[k0 e0] l IH]; intros acc; cbn [foldl].
  - symmetry. apply filter_all. intros x _. unfold stale_keys. simpl.
    apply not_elem_of_nil.
  - rewrite IH. unfold prune_step.
    destruct (decide (stale now e0)) as [Hst|Hst].
    + unfold JSMap.delete, JSMap.t in *. rewrite list_filter_filter.
      apply list_filter_iff. intros [k e]. simpl.
      rewrite stale_keys_cons, decide_True, elem_of_cons by done.
      tauto.
    + apply list_filter_iff. intros q.
      by rewrite stale_keys_cons, decide_False.
Qed.

Lemma prune_peers_filter now roomPeers :
  NoDup (JSMap.keys roomPeers) →
  prune_peers now roomPeers = filter (λ q, ¬ stale now q.2) roomPeers.
Proof.
  intros Hnd. unfold prune_peers. rewrite prune_fold_filter.
  apply filter_ext_in. intros [k e] Hin. simpl. unfold stale_keys.
  rewrite list_elem_of_fmap. split.
  - intros Hn Hst. apply Hn. exists (k, e). split; [done|].
    by apply list_elem_of_filter.
  - intros Hfresh ([k' e'] & Hk & [Hst Hin']%list_elem_of_filter).
    simpl in *. subst k'.
    by rewrite (JSMap_NoDup_lookup roomPeers k e e' Hnd Hin Hin') in Hfresh.
Qed.
End registry_more.

Section registry_wf.
Implicit Types (registry : Registry) (roomPeers m : JSMap.t PeerEntry).
Implicit Types (entry : PeerEntry) (key roomId p n : string) (now : Z).

Lemma keys_filter_NoDup {V} (P : string * V → Prop) `{!∀ x, Decision (P x)}
    (l : JSMap.t V) :
  NoDup (JSMap.keys l) → NoDup (JSMap.keys (filter P l)).
Proof.
  unfold JSMap.keys, JSMap.t. induction l as [|[k v] l IH]; [done|].
  rewrite fmap_cons, NoDup_cons. intros [Hnotin Hnd]. rewrite filter_cons.
  destruct (decide (P (k, v))); [|by apply IH].
  rewrite fmap_cons. apply NoDup_cons. split; [|by apply IH].
  intros ([k' v'] & Heq & [_ Hin]%list_elem_of_filter)%list_elem_of_fmap.
  simpl in Heq. subst k'.
  apply Hnotin. apply list_elem_of_fmap. by exists (k, v').
Qed.

Lemma room_wf_filter (P : string * PeerEntry → Prop)
    `{!∀ x, Decision (P x)} roomPeers :
  room_wf roomPeers → room_wf (filter P roomPeers).
Proof.
  intros [Hnd Hall]. split; [by apply keys_filter_NoDup|].
  apply Forall_forall. intros q [_ Hin]%list_elem_of_filter.
  by apply (proj1 (Forall_forall _ _) Hall).
Qed.

Lemma room_wf_prune now roomPeers :
  room_wf roomPeers → room_wf (prune_peers now roomPeers).
Proof.
  intros Hwf. rewrite prune_peers_filter by apply Hwf.
  by apply room_wf_filter.
Qed.

Lemma room_wf_set p n now roomPeers :
  room_wf roomPeers →
  room_wf (JSMap.set p {| entry_peerId := p; entry_name := n;
                          updatedAt := now |} roomPeers).
Proof.
  intros [Hnd Hall]. split; [by apply JSMap_keys_set_NoDup|].
  apply Forall_forall. intros [k e] [[-> ->]|Hin]%JSMap_elem_set; [done|].
  by apply (proj1 (Forall_forall _ _) Hall (k, e)).
Qed.

Lemma GET_wf now roomId registry :
  registry_wf registry → registry_wf (GET now roomId registry).1.
Proof.
  intros Hwf r roomPeers. destruct (decide (roomId = r)) as [<-|Hne].
  - unfold GET. simpl. rewrite pruneRoom_lookup.
    destruct (registry !! roomId) as [m|] eqn:E; [|done].
    destruct (decide _); [done|]. intros [= <-].
    apply room_wf_prune. by apply (Hwf roomId).
  - unfold GET. simpl. rewrite pruneRoom_lookup_ne by done. apply Hwf.
Qed.

Lemma POST_wf now roomId peerId name registry :
  registry_wf registry →
  registry_wf (POST now roomId peerId name registry).1.
Proof.
  intros Hwf. unfold POST.
  destruct peerId as [p|], name as [n|]; simpl; try done.
  destruct (negb (truthy p) || negb (truthy n)); simpl; [done|].
  intros r roomPeers. destruct (decide (roomId = r)) as [<-|Hne].
  - rewrite lookup_insert_eq. intros [= <-]. apply room_wf_set.
    destruct (registry !! roomId) as [m|] eqn:E; simpl.
    + by apply (Hwf roomId).
    + split; constructor.
  - rewrite lookup_insert_ne by done. apply Hwf.
Qed.

Lemma DELETE_lookup_ne roomId r peerId registry :
  roomId ≠ r → (DELETE roomId peerId registry).1 !! r = registry !! r.
Proof.
  intros Hne. unfold DELETE. destruct peerId as [p|]; [|done].
  destruct (truthy p); [|done]. simpl.
  destruct (registry !! roomId); [|done].
  destruct (decide _).
  - by apply lookup_delete_ne.
  - by apply lookup_insert_ne.
Qed.

Lemma DELETE_wf roomId peerId registry :
  registry_wf registry → registry_wf (DELETE roomId peerId registry).1.
Proof.
  intros Hwf r roomPeers. destruct (decide (roomId = r)) as [<-|Hne].
  - destruct peerId as [p|]; [|apply Hwf].
    destruct (truthy p) eqn:Hp; [|unfold DELETE; rewrite Hp; apply Hwf].
    rewrite DELETE_lookup by done.
    destruct (registry !! roomId) as [m|] eqn:E; [|done].
    destruct (decide _); [done|]. intros [= <-].
    apply room_wf_filter. by apply (Hwf roomId).
  - rewrite DELETE_lookup_ne by done. apply Hwf.
Qed.

Lemma registry_reachable_wf registry :
  registry_reachable registry → registry_wf registry.
Proof.
  induction 1 as [|now roomId reg _ IH|now roomId peerId name reg _ IH
                  |roomId peerId reg _ IH].
  - intros roomId roomPeers. by rewrite lookup_empty.
  - by apply GET_wf.
  - by apply POST_wf.
  - by apply DELETE_wf.
Qed.

Lemma room_wf_ids roomPeers :
  room_wf roomPeers →
  entry_peerId <$> JSMap.values roomPeers = JSMap.keys roomPeers.
Proof.
  intros [_ Hall]. unfold JSMap.values, JSMap.keys.
  induction Hall as [|[k e] l Hhd _ IH]; [done|].
  rewrite !fmap_cons. simpl in *. by rewrite IH, Hhd.
Qed.

Lemma room_values_wf roomId registry :
  registry_wf registry →
  NoDup (entry_peerId <$> room_values roomId registry).
Proof.
  intros Hwf. unfold room_values.
  destruct (registry !! roomId) as [m|] eqn:E; [|constructor].
  rewrite room_wf_ids by by apply (Hwf roomId). by apply (Hwf roomId).
Qed.
End registry_wf.

(** X1. In every registry the handlers can produce, the keys of a room
    are distinct and each entry is stored under its own peer id; so no
    list of peers a handler returns names a peer id twice. *)
Theorem registry_peers_distinct (registry : Registry) :
  registry_reachable registry →
  registry_wf registry ∧
  (∀ now roomId,
     NoDup (entry_peerId <$> response_peers (GET now roomId registry).2)) ∧
  (∀ now roomId peerId name,
     NoDup (entry_peerId
              <$> response_peers (POST now roomId peerId name registry).2)) ∧
  (∀ roomId peerId,
     NoDup (entry_peerId
              <$> response_peers (DELETE roomId peerId registry).2)).
Proof.
  intros Hreach. pose proof (registry_reachable_wf registry Hreach) as Hwf.
  split; [done|]. split; [|split].
  - intros now roomId. apply (room_values_wf roomId), GET_wf, Hwf.
  - intros now roomId peerId name. unfold POST.
    destruct peerId as [p|], name as [n|]; try (simpl; constructor).
    destruct (negb (truthy p) || negb (truthy n)); [simpl; constructor|].
    cbn [snd response_peers json resp_body].
    assert (Hroom : room_wf (default JSMap.empty (registry !! roomId))).
    { destruct (registry !! roomId) as [m|] eqn:E; simpl.
      - by apply (Hwf roomId).
      - split; constructor. }
    pose proof (room_wf_set p n now _ Hroom) as Hset.
    rewrite room_wf_ids by done. apply Hset.
  - intros roomId peerId.
    pose proof (DELETE_wf roomId peerId registry Hwf) as Hwf'.
    unfold DELETE in *. destruct peerId as [p|]; [|constructor].
    destruct (truthy p); [|constructor]. simpl in *.
    by apply (room_values_wf roomId).
Qed.

(** The same peer registers twice and is listed once. *)
Lemma registry_peers_distinct_witness :
  let registry :=
    (POST 9 "room" (Some "p1") (Some "Ann")
       (POST 5 "room" (Some "p1") (Some "Ann") ∅).1).1 in
  NoDup (entry_peerId <$> response_peers (GET 10 "room" registry).2).
Proof.
  intros registry.
  refine (proj1 (proj2 (registry_peers_distinct registry _)) 10 "room").
  apply reg_POST, reg_POST, reg_init.
Defined.

Section registry_laws.
Implicit Types (registry : Registry) (roomPeers m : JSMap.t PeerEntry).
Implicit Types (entry : PeerEntry) (key roomId p n : string) (now : Z).

Lemma JSMap_keys_set_eq {V} k (v : V) (l : JSMap.t V) :
  JSMap.keys (JSMap.set k v l)
  = if decide (k ∈ JSMap.keys l) then JSMap.keys l else JSMap.keys l ++ [k].
Proof.
  unfold JSMap.keys. induction l as [|[k0 v0] l IH]; [done|].
  cbn [JSMap.set].
  destruct (decide (k = k0)) as [->|Hne]; rewrite !fmap_cons; cbn [fst].
  - by rewrite decide_True by left.
  - rewrite IH. destruct (decide (k ∈ l.*1)) as [Hin|Hnotin].
    + by rewrite decide_True by by right.
    + rewrite decide_False; [done|]. intros [?|?]%elem_of_cons; done.
Qed.

Lemma JSMap_delete_set_fresh {V} k (v : V) (l : JSMap.t V) :
  k ∉ JSMap.keys l → JSMap.delete k (JSMap.set k v l) = l.
Proof.
  unfold JSMap.keys, JSMap.delete, JSMap.t.
  induction l as [|[k0 v0] l IH]; simpl.
  - intros _. by rewrite filter_cons_False by (simpl; auto).
  - rewrite not_elem_of_cons. intros [Hne Hnotin].
    rewrite decide_False by done.
    rewrite filter_cons_True by (simpl; auto). by rewrite IH.
Qed.

Lemma JSMap_delete_absent {V} k (l : JSMap.t V) :
  k ∉ JSMap.keys l → JSMap.delete k l = l.
Proof.
  intros Hnotin. apply filter_all. intros [k0 v0] Hin. simpl. intros ->.
  apply Hnotin. unfold JSMap.keys. apply list_elem_of_fmap.
  by exists (k, v0).
Qed.

Lemma prune_peers_idemp now roomPeers :
  prune_peers now (prune_peers now roomPeers) = prune_peers now roomPeers.
Proof.
  unfold prune_peers at 1. rewrite prune_fold_filter.
  apply filter_all. intros [k e] Hin. simpl. unfold stale_keys.
  intros ([k' e'] & Hk & [Hst Hin']%list_elem_of_filter)%list_elem_of_fmap.
  by apply prune_peers_fresh in Hin'.
Qed.
End registry_laws.

(** What [GET] answers for a room with distinct keys. *)
Lemma GET_response_filter (now : Z) (roomId : string) (registry : Registry)
    (roomPeers : JSMap.t PeerEntry) :
  registry !! roomId = Some roomPeers →
  NoDup (JSMap.keys roomPeers) →
  response_peers (GET now roomId registry).2
  = JSMap.values (filter (λ q, ¬ stale now q.2) roomPeers).
Proof.
  intros Hroom Hnd. unfold GET, room_values. simpl.
  rewrite pruneRoom_lookup, Hroom, prune_peers_filter by done.
  by destruct (decide _) as [->|].
Qed.

(** X2. With distinct keys in the room, [GET] answers with exactly the
    entries that are at most one hour old, in the order of the room (an
    entry exactly one hour old is kept), and stores that room, or no room
    when nothing is left. For a room the registry does not hold, it
    answers with no peers and changes nothing. *)
Theorem GET_lists_fresh_entries (now : Z) (roomId : string)
    (registry : Registry) :
  (registry !! roomId = None →
   GET now roomId registry = (registry, json (PeersBody []) None)) ∧
  (∀ roomPeers,
     registry !! roomId = Some roomPeers →
     NoDup (JSMap.keys roomPeers) →
     let kept :=
       filter (λ q, now - updatedAt q.2 ≤ 1000 * 60 * 60) roomPeers in
     response_peers (GET now roomId registry).2 = JSMap.values kept ∧
     (GET now roomId registry).1
       = if decide (kept = []) then delete roomId registry
         else <[roomId := kept]> registry).
Proof.
  split.
  - intros Hnone. unfold GET, pruneRoom, room_values. by rewrite !Hnone.
  - intros roomPeers Hroom Hnd kept.
    assert (Hkept : prune_peers now roomPeers = kept).
    { rewrite prune_peers_filter by done. apply list_filter_iff.
      intros q. unfold stale. lia. }
    unfold GET, room_values. simpl. rewrite pruneRoom_lookup, Hroom, Hkept.
    unfold pruneRoom. rewrite Hroom, Hkept.
    destruct (decide (kept = [])) as [Hnil|Hne].
    + rewrite decide_True by by apply JSMap_size_0. by rewrite Hnil.
    + rewrite decide_False by by rewrite JSMap_size_0. done.
Qed.

(** Two peers, one seen exactly an hour ago and one a millisecond
    earlier. *)
Lemma GET_lists_fresh_entries_witness :
  let old := {| entry_peerId := "p1"; entry_name := "Ann";
                updatedAt := 0 |} in
  let edge := {| entry_peerId := "p2"; entry_name := "Bob";
                 updatedAt := 1 |} in
  response_peers
    (GET 3600001 "room" {["room" := [("p1", old); ("p2", edge)]]}).2
  = [edge].
Proof.
  intros old edge.
  refine (proj1 (proj2 (GET_lists_fresh_entries 3600001 "room"
                          {["room" := [("p1", old); ("p2", edge)]]})
                   [("p1", old); ("p2", edge)] _ _)).
  - apply lookup_singleton_eq.
  - unfold JSMap.keys. simpl. apply NoDup_cons. split.
    + rewrite list_elem_of_singleton. discriminate.
    + apply NoDup_singleton.
Defined.

(** X3. A peer that has registered is listed by every [GET] of its room
    made within the hour, with the name and the time of its [POST]. *)
Theorem POST_then_GET_lists_peer (now now' : Z) (roomId p n : string)
    (registry : Registry) :
  truthy p = true → truthy n = true →
  (∀ roomPeers, registry !! roomId = Some roomPeers →
                NoDup (JSMap.keys roomPeers)) →
  now' - now ≤ 1000 * 60 * 60 →
  {| entry_peerId := p; entry_name := n; updatedAt := now |}
  ∈ response_peers
      (GET now' roomId (POST now roomId (Some p) (Some n) registry).1).2.
Proof.
  intros Hp Hn Hnd Hfresh.
  set (entry := {| entry_peerId := p; entry_name := n; updatedAt := now |}).
  set (roomPeers' :=
         JSMap.set p entry (default JSMap.empty (registry !! roomId))).
  assert (Hpost : (POST now roomId (Some p) (Some n) registry).1
                  = <[roomId := roomPeers']> registry).
  { unfold POST. by rewrite Hp, Hn. }
  assert (Hnd' : NoDup (JSMap.keys roomPeers')).
  { apply JSMap_keys_set_NoDup.
    destruct (registry !! roomId) as [m|] eqn:E; simpl.
    - by apply Hnd.
    - constructor. }
  rewrite Hpost.
  rewrite (GET_response_filter now' roomId _ roomPeers')
    by (done || apply lookup_insert_eq).
  apply JSMap_elem_values. exists p. apply list_elem_of_filter.
  split; [unfold stale; simpl; lia|]. apply JSMap_elem_set_new.
Qed.

(** Registered at 5, listed at 3600005. *)
Lemma POST_then_GET_lists_peer_witness :
  {| entry_peerId := "p1"; entry_name := "Ann"; updatedAt := 5 |}
  ∈ response_peers
      (GET 3600005 "room" (POST 5 "room" (Some "p1") (Some "Ann") ∅).1).2.
Proof.
  apply (POST_then_GET_lists_peer 5 3600005 "room" "p1" "Ann" ∅).
  - reflexivity.
  - reflexivity.
  - intros roomPeers. by rewrite lookup_empty.
  - lia.
Defined.

(** X4. [POST] is an upsert: for a peer id already in the room the list
    of peer ids stays as it is, order included, and only the entry under
    that id is replaced; a new peer id is appended at the end. *)
Theorem POST_upserts (now : Z) (roomId p n : string) (registry : Registry) :
  truthy p = true → truthy n = true →
  let before := default JSMap.empty (registry !! roomId) in
  ∃ after,
    (POST now roomId (Some p) (Some n) registry).1 !! roomId = Some after ∧
    response_peers (POST now roomId (Some p) (Some n) registry).2
      = JSMap.values after ∧
    JSMap.keys after
      = (if decide (p ∈ JSMap.keys before) then JSMap.keys before
         else JSMap.keys before ++ [p]) ∧
    JSMap.get p after
      = Some {| entry_peerId := p; entry_name := n; updatedAt := now |} ∧
    (∀ key, key ≠ p → JSMap.get key after = JSMap.get key before).
Proof.
  intros Hp Hn before. unfold POST. rewrite Hp, Hn. simpl.
  eexists. split; [apply lookup_insert_eq|]. split; [done|].
  split; [apply JSMap_keys_set_eq|]. split; [apply JSMap_get_set_eq|].
  intros key Hne. by apply JSMap_get_set_ne.
Qed.

(** A peer renames itself: still one entry, now under the new name. *)
Lemma POST_upserts_witness :
  let registry := (POST 5 "room" (Some "p1") (Some "Ann") ∅).1 in
  response_peers (POST 9 "room" (Some "p1") (Some "Anna") registry).2
  = [{| entry_peerId := "p1"; entry_name := "Anna"; updatedAt := 9 |}].
Proof.
  intros registry.
  destruct (POST_upserts 9 "room" "p1" "Anna" registry eq_refl eq_refl)
    as (after & Hafter & -> & _).
  vm_compute in Hafter. injection Hafter as <-. reflexivity.
Defined.

(** X5. After a [DELETE] of a peer id from a well-formed registry, no
    entry with that peer id is returned, by the [DELETE] itself or by a
    [GET] of the room that follows. *)
Theorem DELETE_unlists_peer (now : Z) (roomId p : string)
    (registry : Registry) (entry : PeerEntry) :
  registry_wf registry → truthy p = true →
  entry_peerId entry = p →
  (entry ∉ response_peers (DELETE roomId (Some p) registry).2) ∧
  (entry ∉ response_peers
             (GET now roomId (DELETE roomId (Some p) registry).1).2).
Proof.
  intros Hwf Hp Hid.
  assert (Hgone : ∀ m key, (DELETE roomId (Some p) registry).1 !! roomId
                           = Some m → (key, entry) ∉ m).
  { intros m key. rewrite DELETE_lookup by done.
    destruct (registry !! roomId) as [m0|] eqn:E; [|done].
    destruct (decide _); [done|]. intros [= <-].
    rewrite JSMap_elem_delete. intros [Hne Hin].
    destruct (Hwf roomId m0 E) as [_ Hall].
    pose proof (proj1 (Forall_forall _ _) Hall (key, entry) Hin) as Hkey.
    simpl in Hkey. congruence. }
  split.
  - assert (Hresp : response_peers (DELETE roomId (Some p) registry).2
                    = room_values roomId (DELETE roomId (Some p) registry).1)
      by (unfold DELETE; by rewrite Hp).
    rewrite Hresp. unfold room_values.
    destruct (_ !! roomId) as [m|] eqn:E; [|apply not_elem_of_nil].
    intros [key Hin]%JSMap_elem_values. by apply (Hgone m key).
  - intros (m & key & Hm & Hin)%GET_peers_elem.
    apply prune_peers_elem in Hin as [Hin _]. by apply (Hgone m key).
Qed.

(** Two peers register, one leaves. *)
Lemma DELETE_unlists_peer_witness :
  let registry :=
    (POST 6 "room" (Some "p2") (Some "Bob")
       (POST 5 "room" (Some "p1") (Some "Ann") ∅).1).1 in
  {| entry_peerId := "p1"; entry_name := "Ann"; updatedAt := 5 |}
  ∉ response_peers (GET 7 "room" (DELETE "room" (Some "p1") registry).1).2.
Proof.
  intros registry.
  refine (proj2 (DELETE_unlists_peer 7 "room" "p1" registry _ _ _ _)).
  - apply registry_reachable_wf, reg_POST, reg_POST, reg_init.
  - reflexivity.
  - reflexivity.
Defined.

(** X6. A request for one room leaves every other room of the registry
    as it is. *)
Theorem rooms_are_independent (now : Z) (roomId other : string)
    (peerId name : option string) (registry : Registry) :
  roomId ≠ other →
  (GET now roomId registry).1 !! other = registry !! other ∧
  (POST now roomId peerId name registry).1 !! other = registry !! other ∧
  (DELETE roomId peerId registry).1 !! other = registry !! other.
Proof.
  intros Hne. split; [|split].
  - unfold GET. simpl. by apply pruneRoom_lookup_ne.
  - unfold POST. destruct peerId as [p|], name as [n|]; simpl; try done.
    destruct (negb (truthy p) || negb (truthy n)); simpl; [done|].
    by apply lookup_insert_ne.
  - by apply DELETE_lookup_ne.
Qed.

(** Pruning room [a] an hour late does not touch the stale peer of room
    [b]. *)
Lemma rooms_are_independent_witness :
  let registry :=
    (POST 5 "b" (Some "p1") (Some "Ann") ∅).1 in
  (GET 7200000 "a" registry).1 !! "b" = registry !! "b".
Proof.
  intros registry.
  refine (proj1 (rooms_are_independent 7200000 "a" "b" None None registry _)).
  discriminate.
Defined.

(** X7. A [GET] repeated at the same instant changes nothing more and
    answers the same: the sweep is idempotent. *)
Theorem GET_idempotent (now : Z) (roomId : string) (registry : Registry) :
  GET now roomId (GET now roomId registry).1 = GET now roomId registry.
Proof.
  assert (Hreg : pruneRoom now roomId (pruneRoom now roomId registry)
                 = pruneRoom now roomId registry).
  { unfold pruneRoom at 1. rewrite pruneRoom_lookup.
    destruct (registry !! roomId) as [m|] eqn:E.
    - destruct (decide (prune_peers now m = [])) as [Hnil|Hne]; [done|].
      rewrite prune_peers_idemp.
      rewrite decide_False by by rewrite JSMap_size_0.
      unfold pruneRoom. rewrite E.
      rewrite decide_False by by rewrite JSMap_size_0.
      apply insert_insert_eq.
    - done. }
  unfold GET. simpl. by rewrite Hreg.
Qed.

(** X8. Registering a peer id the room does not hold and deleting it
    again gives back the registry: the room it was alone in is gone, a
    room with others is as before. *)
Theorem POST_then_DELETE_restores (now : Z) (roomId p n : string)
    (registry : Registry) :
  truthy p = true → truthy n = true →
  (∀ roomPeers, registry !! roomId = Some roomPeers →
                (p ∉ JSMap.keys roomPeers) ∧ roomPeers ≠ []) →
  (DELETE roomId (Some p)
     (POST now roomId (Some p) (Some n) registry).1).1 = registry.
Proof.
  intros Hp Hn Hroom. unfold POST. rewrite Hp, Hn. simpl.
  unfold DELETE. rewrite Hp. simpl. rewrite lookup_insert_eq.
  destruct (registry !! roomId) as [m|] eqn:E; simpl.
  - destruct (Hroom m eq_refl) as [Hnotin Hne].
    rewrite JSMap_delete_set_fresh by done.
    rewrite decide_False by by rewrite JSMap_size_0.
    rewrite insert_insert_eq. by apply insert_id.
  - pose proof (JSMap_delete_set_fresh p
                  {| entry_peerId := p; entry_name := n; updatedAt := now |}
                  [] (not_elem_of_nil _)) as Hdel.
    simpl in Hdel. rewrite Hdel. simpl. by apply delete_insert_id.
Qed.

(** A peer enters an empty registry and leaves it empty. *)
Lemma POST_then_DELETE_restores_witness :
  (DELETE "room" (Some "p1")
     (POST 5 "room" (Some "p1") (Some "Ann") ∅).1).1 = ∅.
Proof.
  apply (POST_then_DELETE_restores 5 "room" "p1" "Ann" ∅).
  - reflexivity.
  - reflexivity.
  - intros roomPeers. by rewrite lookup_empty.
Defined.

(** ** Membership *)

Section membership.
Implicit Types (st : RoomState) (u : RoomUser) (l : list RoomUser).
Implicit Types (peerId remotePeerId : string).

Lemma find_user_None peerId l :
  find_user peerId l = None ↔ peerId ∉ user_peerId <$> l.
Proof.
  unfold find_user. induction l as [|u l IH].
  - split; [intros _; apply not_elem_of_nil|done].
  - cbn [List.find]. rewrite fmap_cons, not_elem_of_cons.
    destruct (bool_decide (user_peerId u = peerId)) eqn:E.
    + apply bool_decide_eq_true in E. split; [done|]. intros [? _]. done.
    + apply bool_decide_eq_false in E. rewrite IH. split; [|tauto].
      intros ?. split; [congruence|done].
Qed.

Lemma ids_filter_NoDup (P : RoomUser → Prop) `{!∀ x, Decision (P x)} l :
  NoDup (user_peerId <$> l) → NoDup (user_peerId <$> filter P l).
Proof.
  induction l as [|u l IH]; [done|].
  rewrite fmap_cons, NoDup_cons. intros [Hnotin Hnd]. rewrite filter_cons.
  destruct (decide (P u)); [|by apply IH].
  rewrite fmap_cons. apply NoDup_cons. split; [|by apply IH].
  intros (u' & Heq & [_ Hin]%list_elem_of_filter)%list_elem_of_fmap.
  apply Hnotin. apply list_elem_of_fmap. by exists u'.
Qed.

Lemma ids_filter_ne peerId l :
  peerId ∉ user_peerId <$> filter (λ u, user_peerId u ≠ peerId) l.
Proof.
  intros (u & -> & [Hne _]%list_elem_of_filter)%list_elem_of_fmap. done.
Qed.

Lemma add_if_absent_users u st :
  users (add_if_absent u st)
  = if decide (user_peerId u ∈ user_peerId <$> users st) then users st
    else users st ++ [u].
Proof.
  unfold add_if_absent.
  destruct (find_user (user_peerId u) (users st)) eqn:E.
  - rewrite decide_True; [done|].
    destruct (decide (user_peerId u ∈ user_peerId <$> users st)); [done|].
    apply find_user_None in n. congruence.
  - apply find_user_None in E. by rewrite decide_False.
Qed.

Lemma add_if_absent_NoDup u st :
  NoDup (user_peerId <$> users st) →
  NoDup (user_peerId <$> users (add_if_absent u st)).
Proof.
  intros Hnd. rewrite add_if_absent_users.
  destruct (decide _) as [Hin|Hnotin]; [done|].
  rewrite fmap_app. apply NoDup_app. split; [done|]. split.
  - intros x Hx [->|[]%elem_of_nil]%elem_of_cons. done.
  - apply NoDup_singleton.
Qed.

Lemma JSMap_get_delete_ne {V} k k' (m : JSMap.t V) :
  k ≠ k' → JSMap.get k' (JSMap.delete k m) = JSMap.get k' m.
Proof.
  intros Hne. unfold JSMap.delete, JSMap.t.
  induction m as [|[k0 v0] m IH]; [done|].
  rewrite filter_cons. simpl. destruct (decide (k0 ≠ k)) as [Hk|Hk].
  - simpl. by rewrite IH.
  - apply dec_stable in Hk. subst k0. by rewrite decide_False by done.
Qed.

Lemma JSMap_has_get {V} k (m : JSMap.t V) :
  JSMap.has k m = true ↔ is_Some (JSMap.get k m).
Proof.
  unfold JSMap.has. destruct (JSMap.get k m) as [v|]; split; try done;
    by intros [? ?].
Qed.
End membership.

(** X9. The roster never names a peer id twice: whatever message
    [handleData] handles, and when a connection closes, a roster with
    distinct peer ids stays one; after a [user-list] message the peer
    ids are distinct whatever the roster was. *)
Theorem roster_ids_stay_distinct (now : Z) (st : RoomState)
    (data : PeerData) (remotePeerId : string) :
  (NoDup (user_peerId <$> users st) →
   NoDup (user_peerId <$> users (handleData now st data).1) ∧
   NoDup (user_peerId <$> users (onClose remotePeerId st).1)) ∧
  (∀ payload,
     NoDup (user_peerId <$> users (handleData now st (MUserList payload)).1)).
Proof.
  split; [|intros payload; apply merge_users_NoDup].
  intros Hnd. split.
  - destruct data as [name peerId|payload|newUser|peerId|md|chunk ix tot f|f];
      simpl.
    + by apply add_if_absent_NoDup.
    + apply merge_users_NoDup.
    + by apply add_if_absent_NoDup.
    + destruct (JSMap.get peerId (connectionsRef st)); simpl;
        by apply ids_filter_NoDup.
    + destruct (receivedFiles st !! meta_fileId md) as [e|]; [|done].
      by destruct (completed e).
    + destruct (receivedFiles st !! f) as [e|]; [|done].
      by destruct (completed e).
    + destruct (receivedFiles st !! f) as [e|]; [|done].
      by destruct (completed e).
  - simpl. by apply ids_filter_NoDup.
Qed.

(** A peer announces itself twice and is listed once. *)
Lemma roster_ids_stay_distinct_witness :
  let st := {| myPeerIdRef := Some "p1"; myNameRef := "Ann"; isJoined := true;
               users := [{| user_peerId := "p2"; user_name := "Bob" |}];
               usersRef := [{| user_peerId := "p2"; user_name := "Bob" |}];
               receivedFiles := ∅; connectionsRef := [];
               status := "Joined room" |} in
  NoDup (user_peerId <$> users (handleData 0 st (MJoin "Bobby" "p2")).1).
Proof.
  intros st.
  refine (proj1 (proj1 (roster_ids_stay_distinct 0 st (MJoin "Bobby" "p2")
                          "p2") _)).
  simpl. apply NoDup_singleton.
Defined.

(** X10. A [user-left] message removes the peer from the roster and from
    the connections and keeps every other user and connection; the
    channel is closed exactly when the room had one for that peer, and
    nothing else is done. *)
Theorem user_left_removes_peer (now : Z) (st : RoomState) (peerId : string) :
  let st' := (handleData now st (MUserLeft peerId)).1 in
  (peerId ∉ user_peerId <$> users st') ∧
  JSMap.get peerId (connectionsRef st') = None ∧
  (∀ u, u ∈ users st' ↔ u ∈ users st ∧ user_peerId u ≠ peerId) ∧
  (∀ other, other ≠ peerId →
     JSMap.get other (connectionsRef st')
     = JSMap.get other (connectionsRef st)) ∧
  usersRef st' = users st' ∧
  (handleData now st (MUserLeft peerId)).2
    = (if JSMap.has peerId (connectionsRef st) then [Close peerId] else []).
Proof.
  simpl. unfold JSMap.has.
  destruct (JSMap.get peerId (connectionsRef st)) as [conn|] eqn:E; simpl.
  - split; [apply ids_filter_ne|]. split; [apply JSMap_get_delete|].
    split; [intros u; rewrite list_elem_of_filter; tauto|].
    split; [|done]. intros other Hne. by apply JSMap_get_delete_ne.
  - split; [apply ids_filter_ne|]. split; [done|].
    split; [intros u; rewrite list_elem_of_filter; tauto|]. done.
Qed.

(** X11. The only things [handleData] starts are a connection to a peer
    announced by [user-joined] that has no connection yet and is not the
    local peer, and the closing of the connection of a peer announced by
    [user-left]; it sends nothing. *)
Theorem handleData_effects (now : Z) (st : RoomState) (data : PeerData)
    (ef : Effect) :
  ef ∈ (handleData now st data).2 →
  (∃ newUser, data = MUserJoined newUser ∧
              ef = Connect (user_peerId newUser) ∧
              JSMap.get (user_peerId newUser) (connectionsRef st) = None ∧
              myPeerIdRef st ≠ Some (user_peerId newUser)) ∨
  (∃ peerId, data = MUserLeft peerId ∧ ef = Close peerId ∧
             is_Some (JSMap.get peerId (connectionsRef st))).
Proof.
  destruct data as [name peerId|payload|newUser|peerId|md|chunk ix tot f|f];
    simpl; try (by intros ?%elem_of_nil).
  - unfold JSMap.has.
    destruct (JSMap.get (user_peerId newUser) (connectionsRef st)) eqn:E;
      simpl; [by intros ?%elem_of_nil|].
    destruct (bool_decide _) eqn:Hself; [|by intros ?%elem_of_nil].
    apply bool_decide_eq_true in Hself.
    intros ->%list_elem_of_singleton. left. exists newUser.
    split; [done|]. split; [done|]. split; [done|]. congruence.
  - destruct (JSMap.get peerId (connectionsRef st)) eqn:E; simpl;
      [|by intros ?%elem_of_nil].
    intros ->%list_elem_of_singleton. right. exists peerId.
    split; [done|]. split; [done|]. by eexists.
  - destruct (receivedFiles st !! meta_fileId md) as [e|];
      [destruct (completed e)|]; by intros ?%elem_of_nil.
  - destruct (receivedFiles st !! f) as [e|];
      [destruct (completed e)|]; by intros ?%elem_of_nil.
  - destruct (receivedFiles st !! f) as [e|];
      [destruct (completed e)|]; by intros ?%elem_of_nil.
Qed.

(** The announcement of an unknown peer starts one connection. *)
Lemma handleData_effects_witness :
  let st := {| myPeerIdRef := Some "p1"; myNameRef := "Ann"; isJoined := true;
               users := []; usersRef := []; receivedFiles := ∅;
               connectionsRef := []; status := "Joined room" |} in
  let newUser := {| user_peerId := "p2"; user_name := "Bob" |} in
  JSMap.get "p2" (connectionsRef st) = None.
Proof.
  intros st newUser.
  destruct (handleData_effects 0 st (MUserJoined newUser) (Connect "p2"))
    as [(u & Hdata & _ & Hget & _)|(p & Hdata & _)].
  - left.
  - injection Hdata as <-. exact Hget.
  - discriminate.
Defined.

(** X12. File messages and membership messages keep to their own state:
    a [metadata], [chunk] or [end] message changes nothing but
    [receivedFiles] and has no effect, and a [join], [user-list],
    [user-joined] or [user-left] message leaves [receivedFiles] as it
    is. *)
Theorem transfers_and_membership_are_separate (now : Z) (st : RoomState)
    (data : PeerData) :
  ((∃ fileId, carries data fileId) →
   (handleData now st data).1
     = set_receivedFiles (receivedFiles (handleData now st data).1) st ∧
   (handleData now st data).2 = []) ∧
  ((∀ fileId, ¬ carries data fileId) →
   receivedFiles (handleData now st data).1 = receivedFiles st ∧
   myPeerIdRef (handleData now st data).1 = myPeerIdRef st ∧
   myNameRef (handleData now st data).1 = myNameRef st ∧
   isJoined (handleData now st data).1 = isJoined st).
Proof.
  destruct data as [name peerId|payload|newUser|peerId|md|chunk ix tot f|f];
    simpl; split; try (by intros [? []]); try (intros H; by destruct (H f));
    try (intros H; by destruct (H (meta_fileId md))); intros _.
  - unfold add_if_absent. by destruct (find_user _ _).
  - done.
  - unfold add_if_absent. by destruct (find_user _ _).
  - by destruct (JSMap.get peerId (connectionsRef st)).
  - destruct (receivedFiles st !! meta_fileId md) as [e|];
      [destruct (completed e)|]; simpl;
      by rewrite ?set_receivedFiles_id.
  - destruct (receivedFiles st !! f) as [e|];
      [destruct (completed e)|]; simpl; by rewrite ?set_receivedFiles_id.
  - destruct (receivedFiles st !! f) as [e|];
      [destruct (completed e)|]; simpl; by rewrite ?set_receivedFiles_id.
Qed.

(** A chunk for a file being received leaves the roster alone. *)
Lemma transfers_and_membership_are_separate_witness :
  let md := {| meta_name := "a.bin"; meta_size := 2; meta_type := "";
               meta_senderId := "p2"; meta_senderName := "Bob";
               meta_fileId := "f1" |} in
  let st := {| myPeerIdRef := Some "p1"; myNameRef := "Ann"; isJoined := true;
               users := [{| user_peerId := "p2"; user_name := "Bob" |}];
               usersRef := [{| user_peerId := "p2"; user_name := "Bob" |}];
               receivedFiles := {["f1" := newFile 3 md]};
               connectionsRef := [("p2", {| conn_open := true |})];
               status := "Joined room" |} in
  (handleData 4 st (MChunk [x01] 0 0 "f1")).2 = [].
Proof.
  intros md st.
  refine (proj2 (proj1 (transfers_and_membership_are_separate 4 st
                          (MChunk [x01] 0 0 "f1")) _)).
  by exists "f1".
Defined.

(** A peer that left is dropped, its channel closed, the others kept. *)
Lemma user_left_removes_peer_witness :
  let st := {| myPeerIdRef := Some "p1"; myNameRef := "Ann"; isJoined := true;
               users := [{| user_peerId := "p2"; user_name := "Bob" |};
                         {| user_peerId := "p3"; user_name := "Cy" |}];
               usersRef := [];
               receivedFiles := ∅;
               connectionsRef := [("p2", {| conn_open := true |});
                                  ("p3", {| conn_open := true |})];
               status := "Joined room" |} in
  JSMap.get "p3" (connectionsRef (handleData 0 st (MUserLeft "p2")).1)
  = Some {| conn_open := true |}.
Proof.
  intros st.
  destruct (user_left_removes_peer 0 st "p2") as (_ & _ & _ & Hkept & _).
  rewrite (Hkept "p3"); [reflexivity|discriminate].
Defined.

(** X13. How a roster spreads. When a connection to [b] opens at a room
    that has an id [a] and a name, the room files the connection and
    sends [b] one [user-list]; once [b] has handled it, [b] knows [a]
    and every user of the sender's roster other than itself, has
    forgotten nobody, and has not listed itself unless it already had. *)
Theorem roster_spreads_on_open (now : Z) (stA stB : RoomState)
    (a b : string) :
  myPeerIdRef stA = Some a → truthy a = true →
  truthy (myNameRef stA) = true →
  myPeerIdRef stB = Some b → a ≠ b →
  JSMap.get b (connectionsRef (onOpen b stA).1)
    = Some {| conn_open := true |} ∧
  ∃ payload,
    (onOpen b stA).2 = [Send b (MUserList payload)] ∧
    let stB' := (handleData now stB (MUserList payload)).1 in
    a ∈ user_peerId <$> users stB' ∧
    (∀ u, u ∈ usersRef stA → user_peerId u ≠ b →
          user_peerId u ∈ user_peerId <$> users stB') ∧
    (∀ u, u ∈ users stB → user_peerId u ∈ user_peerId <$> users stB') ∧
    ((b ∉ user_peerId <$> users stB) → b ∉ user_peerId <$> users stB').
Proof.
  intros HA Ha Hname HB Hab. split; [apply JSMap_get_set_eq|].
  unfold onOpen. rewrite HA, Ha, Hname. simpl. eexists. split; [done|].
  rewrite HB. split; [|split; [|split]].
  - apply merge_users_ids. right. apply list_elem_of_fmap.
    exists {| user_peerId := a; user_name := myNameRef stA |}.
    split; [done|]. apply list_elem_of_filter. split; [simpl; congruence|].
    left.
  - intros u Hu Hne. apply merge_users_ids. right.
    apply list_elem_of_fmap_2. apply list_elem_of_filter.
    split; [congruence|]. right. by apply list_elem_of_filter.
  - intros u Hu. apply merge_users_ids. left. by apply list_elem_of_fmap_2.
  - intros Hnotin [Hin|Hin]%merge_users_ids; [done|].
    apply list_elem_of_fmap in Hin as (u & -> & [Hself _]%list_elem_of_filter).
    done.
Qed.

(** [p1], which knows [p3], opens a connection to the newcomer [p2]. *)
Lemma roster_spreads_on_open_witness :
  let stA := {| myPeerIdRef := Some "p1"; myNameRef := "Ann";
                isJoined := true;
                users := [{| user_peerId := "p3"; user_name := "Cy" |}];
                usersRef := [{| user_peerId := "p3"; user_name := "Cy" |}];
                receivedFiles := ∅;
                connectionsRef := [("p3", {| conn_open := true |})];
                status := "Joined room" |} in
  let stB := {| myPeerIdRef := Some "p2"; myNameRef := "Bob";
                isJoined := true; users := []; usersRef := [];
                receivedFiles := ∅; connectionsRef := [];
                status := "Joined room" |} in
  ∃ payload,
    (onOpen "p2" stA).2 = [Send "p2" (MUserList payload)] ∧
    "p1" ∈ user_peerId <$> users (handleData 0 stB (MUserList payload)).1 ∧
    "p3" ∈ user_peerId <$> users (handleData 0 stB (MUserList payload)).1.
Proof.
  intros stA stB.
  destruct (roster_spreads_on_open 0 stA stB "p1" "p2")
    as (_ & payload & Hsent & Ha & Hall & _).
  - reflexivity.
  - reflexivity.
  - reflexivity.
  - reflexivity.
  - discriminate.
  - exists payload. split; [exact Hsent|]. split; [exact Ha|].
    apply (Hall {| user_peerId := "p3"; user_name := "Cy" |}).
    + left.
    + discriminate.
Defined.

(** X14. When the connection to a peer closes or fails, the room drops
    the peer from the roster and from the connections, keeps the other
    users, and sends a [user-left] naming that peer to exactly the other
    peers with an open connection; a room that handles this message no
    longer lists the peer. *)
Theorem close_drops_and_announces (now : Z) (st stB : RoomState)
    (remotePeerId : string) :
  onError remotePeerId st = onClose remotePeerId st ∧
  (remotePeerId ∉ user_peerId <$> users (onClose remotePeerId st).1) ∧
  JSMap.get remotePeerId (connectionsRef (onClose remotePeerId st).1)
    = None ∧
  (∀ u, u ∈ users (onClose remotePeerId st).1 ↔
        u ∈ users st ∧ user_peerId u ≠ remotePeerId) ∧
  (∀ peerId d,
     Send peerId d ∈ (onClose remotePeerId st).2 ↔
     d = MUserLeft remotePeerId ∧ peerId ≠ remotePeerId ∧
     ∃ conn, (peerId, conn) ∈ connectionsRef st ∧ conn_open conn = true) ∧
  (∀ ef, ef ∈ (onClose remotePeerId st).2 →
     ∃ peerId, ef = Send peerId (MUserLeft remotePeerId) ∧
       remotePeerId
       ∉ user_peerId <$> users (handleData now stB (MUserLeft remotePeerId)).1).
Proof.
  split; [done|]. simpl. split; [apply ids_filter_ne|].
  split; [apply JSMap_get_delete|].
  split; [intros u; rewrite list_elem_of_filter; tauto|]. split.
  - intros peerId d. rewrite broadcastToOthers_elem. split.
    + intros [-> (conn & [Hne Hin]%JSMap_elem_delete & Hopen)].
      split; [done|]. split; [done|]. by exists conn.
    + intros (-> & Hne & conn & Hin & Hopen). split; [done|].
      exists conn. split; [|done]. by apply JSMap_elem_delete.
  - intros ef [peerId ->]%broadcastToOthers_sends. exists peerId.
    split; [done|].
    destruct (JSMap.get remotePeerId (connectionsRef stB)); simpl;
      apply ids_filter_ne.
Qed.

(** [p2] drops out of a room of three; [p3] is told. *)
Lemma close_drops_and_announces_witness :
  let st := {| myPeerIdRef := Some "p1"; myNameRef := "Ann"; isJoined := true;
               users := [{| user_peerId := "p2"; user_name := "Bob" |};
                         {| user_peerId := "p3"; user_name := "Cy" |}];
               usersRef := [];
               receivedFiles := ∅;
               connectionsRef := [("p2", {| conn_open := false |});
                                  ("p3", {| conn_open := true |})];
               status := "Joined room" |} in
  Send "p3" (MUserLeft "p2") ∈ (onClose "p2" st).2.
Proof.
  intros st.
  destruct (close_drops_and_announces 0 st st "p2")
    as (_ & _ & _ & _ & Hsend & _).
  apply Hsend. split; [reflexivity|]. split; [discriminate|].
  exists {| conn_open := true |}. split; [|reflexivity].
  right. left.
Defined.



(** ** Joining a room *)

Section joining.
Variable trim : string → string.
Implicit Types (st : RoomState) (registry : Registry).

Lemma fmap_filter_NoDup {A B} (f : A → B) (P : A → Prop)
    `{!∀ x, Decision (P x)} (l : list A) :
  NoDup (f <$> l) → NoDup (f <$> filter P l).
Proof.
  induction l as [|x l IH]; [done|].
  rewrite fmap_cons, NoDup_cons. intros [Hnotin Hnd]. rewrite filter_cons.
  destruct (decide (P x)); [|by apply IH].
  rewrite fmap_cons. apply NoDup_cons. split; [|by apply IH].
  intros (x' & Heq & [_ Hin]%list_elem_of_filter)%list_elem_of_fmap.
  apply Hnotin. apply list_elem_of_fmap. by exists x'.
Qed.

Lemma to_user_ids (l : list PeerEntry) :
  user_peerId <$> (to_user <$> l) = entry_peerId <$> l.
Proof. rewrite <- list_fmap_compose. by apply list_fmap_ext. Qed.

(** The steps of a join whose two requests get through. *)
Lemma joinRoom_joined myName t1 t2 roomId registry st me :
  myPeerIdRef st = Some me → truthy me = true →
  truthy (trim myName) = true →
  let registry1 := (POST t1 roomId (Some me) (Some myName) registry).1 in
  let otherPeers :=
    to_user <$> filter (λ peer, entry_peerId peer ≠ me)
                       (response_peers (GET t2 roomId registry1).2) in
  joinRoom trim myName true true t1 t2 roomId registry st
  = ((GET t2 roomId registry1).1,
     {| myPeerIdRef := myPeerIdRef st; myNameRef := myName;
        isJoined := true; users := otherPeers; usersRef := otherPeers;
        receivedFiles := receivedFiles st;
        connectionsRef := connectionsRef st; status := "Joined room" |},
     Connect <$> filter (λ peerId,
                           JSMap.has peerId (connectionsRef st) = false)
                        (user_peerId <$> otherPeers)).
Proof.
  intros Hid Hme Hname. unfold joinRoom. by rewrite Hname, Hid, Hme.
Qed.
End joining.

(** X16. A join whose requests both get through, seen with the registry
    that answers them. The room is joined under the given name; its
    roster holds, once each, the peers of the room other than itself
    whose entries are at most one hour old at the time of the [GET], and
    nobody else; it starts a connection to exactly those of them it has
    no connection to. *)
Theorem joinRoom_roster (trim : string → string) (myName : string)
    (t1 t2 : Z) (roomId : string) (registry : Registry) (st : RoomState)
    (me : string) :
  myPeerIdRef st = Some me → truthy me = true →
  truthy (trim myName) = true →
  registry_wf registry →
  let joined := joinRoom trim myName true true t1 t2 roomId registry st in
  let roomPeers := default JSMap.empty (registry !! roomId) in
  joined.1.1
    = (GET t2 roomId (POST t1 roomId (Some me) (Some myName) registry).1).1 ∧
  isJoined joined.1.2 = true ∧
  myNameRef joined.1.2 = myName ∧
  usersRef joined.1.2 = users joined.1.2 ∧
  (me ∉ user_peerId <$> users joined.1.2) ∧
  NoDup (user_peerId <$> users joined.1.2) ∧
  (∀ u, u ∈ users joined.1.2 ↔
        ∃ key entry, (key, entry) ∈ roomPeers ∧ key ≠ me ∧
                     t2 - updatedAt entry ≤ 1000 * 60 * 60 ∧
                     u = to_user entry) ∧
  (∀ peerId, Connect peerId ∈ joined.2 ↔
             peerId ∈ user_peerId <$> users joined.1.2 ∧
             JSMap.get peerId (connectionsRef st) = None).
Proof.
  intros Hid Hme Hname Hwf joined roomPeers. unfold joined.
  rewrite (joinRoom_joined trim myName t1 t2 roomId registry st me)
    by done.
  cbn [fst snd users usersRef isJoined myNameRef].
  set (registry1 := (POST t1 roomId (Some me) (Some myName) registry).1).
  set (mine := {| entry_peerId := me; entry_name := myName;
                  updatedAt := t1 |}).
  assert (Hroom_wf : room_wf roomPeers).
  { unfold roomPeers. destruct (registry !! roomId) as [m|] eqn:E; simpl.
    - by apply (Hwf roomId).
    - split; constructor. }
  assert (Hreg1 : registry1
                  = if truthy myName
                    then <[roomId := JSMap.set me mine roomPeers]> registry
                    else registry).
  { unfold registry1, POST. rewrite Hme. by destruct (truthy myName). }
  assert (Hkeyed : ∀ key entry, (key, entry) ∈ roomPeers →
                                entry_peerId entry = key).
  { intros key entry Hin. destruct Hroom_wf as [_ Hall].
    apply (proj1 (Forall_forall _ _) Hall (key, entry) Hin). }
  assert (Hpeers : ∀ entry,
            entry ∈ response_peers (GET t2 roomId registry1).2 →
            entry_peerId entry ≠ me →
            ∃ key, (key, entry) ∈ roomPeers ∧ key ≠ me ∧
                   t2 - updatedAt entry ≤ 1000 * 60 * 60).
  { intros entry (m & key & Hm & Hin)%GET_peers_elem Hne.
    apply prune_peers_elem in Hin as [Hin Hfresh].
    specialize (Hfresh entry Hin). unfold stale in Hfresh.
    rewrite Hreg1 in Hm. destruct (truthy myName).
    - rewrite lookup_insert_eq in Hm. injection Hm as <-.
      apply JSMap_elem_set in Hin as [[-> ->]|Hin]; [done|].
      exists key. split; [done|]. split; [|lia].
      rewrite <- (Hkeyed key entry Hin). done.
    - assert (Hin' : (key, entry) ∈ roomPeers)
        by (unfold roomPeers; by rewrite Hm).
      exists key. split; [done|]. split; [|lia].
      rewrite <- (Hkeyed key entry Hin'). done. }
  assert (Hkept : ∀ key entry,
            (key, entry) ∈ roomPeers → key ≠ me →
            t2 - updatedAt entry ≤ 1000 * 60 * 60 →
            entry ∈ response_peers (GET t2 roomId registry1).2 ∧
            entry_peerId entry ≠ me).
  { intros key entry Hin Hne Hfresh.
    split; [|by rewrite (Hkeyed key entry Hin)].
    rewrite Hreg1. destruct (truthy myName).
    - rewrite (GET_response_filter t2 roomId _
                 (JSMap.set me mine roomPeers)).
      + apply JSMap_elem_values. exists key. apply list_elem_of_filter.
        split; [unfold stale; simpl; lia|]. by apply JSMap_elem_set_ne.
      + apply lookup_insert_eq.
      + apply JSMap_keys_set_NoDup, Hroom_wf.
    - unfold roomPeers in Hin.
      destruct (registry !! roomId) as [m|] eqn:E; simpl in Hin;
        [|by apply elem_of_nil in Hin].
      rewrite (GET_response_filter t2 roomId registry m E)
        by apply (Hwf roomId m E).
      apply JSMap_elem_values. exists key. apply list_elem_of_filter.
      split; [unfold stale; simpl; lia|done]. }
  split; [done|]. split; [done|]. split; [done|]. split; [done|].
  split.
  { rewrite to_user_ids.
    intros (e & -> & [Hne _]%list_elem_of_filter)%list_elem_of_fmap. done. }
  split.
  { rewrite to_user_ids. apply fmap_filter_NoDup.
    apply (room_values_wf roomId), GET_wf, POST_wf, Hwf. }
  split.
  { intros u. rewrite list_elem_of_fmap. split.
    - intros (entry & -> & [Hne Hin]%list_elem_of_filter).
      destruct (Hpeers entry Hin Hne) as (key & ? & ? & ?).
      by exists key, entry.
    - intros (key & entry & Hin & Hne & Hfresh & ->).
      exists entry. split; [done|]. apply list_elem_of_filter.
      destruct (Hkept key entry Hin Hne Hfresh). by split. }
  intros peerId. rewrite list_elem_of_fmap. split.
  - intros (q & [= ->] & [Hhas Hin]%list_elem_of_filter). split; [done|].
    unfold JSMap.has in Hhas. by destruct (JSMap.get q (connectionsRef st)).
  - intros [Hin Hget]. exists peerId. split; [done|].
    apply list_elem_of_filter. split; [|done].
    unfold JSMap.has. by rewrite Hget.
Qed.

(** [p3] joins a room that holds [p1], seen recently, and [p2], not seen
    for two hours. *)
Lemma joinRoom_roster_witness :
  let registry :=
    (POST 7000000 "room" (Some "p1") (Some "Ann")
       (POST 0 "room" (Some "p2") (Some "Bob") ∅).1).1 in
  let st := {| myPeerIdRef := Some "p3"; myNameRef := ""; isJoined := false;
               users := []; usersRef := []; receivedFiles := ∅;
               connectionsRef := []; status := "Ready to join room" |} in
  users (joinRoom id "Cy" true true 7200000 7200001 "room" registry st).1.2
  = [{| user_peerId := "p1"; user_name := "Ann" |}] ∧
  NoDup (user_peerId <$>
         users (joinRoom id "Cy" true true 7200000 7200001 "room" registry
                  st).1.2).
Proof.
  intros registry st. split; [reflexivity|].
  refine (proj1 (proj2 (proj2 (proj2 (proj2 (proj2
            (joinRoom_roster id "Cy" 7200000 7200001 "room" registry st "p3"
               _ _ _ _)))))));
    [reflexivity|reflexivity|reflexivity|].
  apply registry_reachable_wf, reg_POST, reg_POST, reg_init.
Defined.

(** ** More on transfers *)

Section layout.
Implicit Types (file : File) (fileId : string) (cs : list (list byte)).

Lemma ceil_chunks_step s :
  CHUNK_SIZE < s →
  1 + Z.max 1 ((s - CHUNK_SIZE + CHUNK_SIZE - 1) / CHUNK_SIZE)
  = Z.max 1 ((s + CHUNK_SIZE - 1) / CHUNK_SIZE).
Proof. unfold CHUNK_SIZE. intros Hs. Z.div_mod_to_equations. lia. Qed.

Lemma ceil_chunks_last s :
  0 ≤ s ≤ CHUNK_SIZE → Z.max 1 ((s + CHUNK_SIZE - 1) / CHUNK_SIZE) = 1.
Proof. unfold CHUNK_SIZE. intros Hs. Z.div_mod_to_equations. lia. Qed.

(** With every read succeeding, the loop started at offset [o] sends the
    slices of [CHUNK_SIZE] bytes at [o], [o + CHUNK_SIZE], ... up to the
    end of the file. *)
Lemma readSlice_layout readOk file fileId fuel o :
  (∀ x, readOk x = true) →
  0 ≤ o ≤ file_size file →
  (Z.to_nat (file_size file - o) < fuel)%nat →
  ∃ cs, readSlice fuel readOk file fileId o
          = Some (chunk_msgs fileId cs ++ [MEnd fileId]) ∧
        Z.of_nat (length cs)
          = Z.max 1 ((file_size file - o + CHUNK_SIZE - 1) / CHUNK_SIZE) ∧
        ∀ k c, cs !! k = Some c →
               c = take (Z.to_nat CHUNK_SIZE)
                     (drop (Z.to_nat (o + Z.of_nat k * CHUNK_SIZE))
                           (file_bytes file)).
Proof.
  intros Hok. pose proof CHUNK_SIZE_pos as HC.
  revert o. induction fuel as [|fuel IH]; intros o Ho Hfuel; [lia|].
  rewrite readSlice_step by done. cbv zeta.
  destruct (decide (o + CHUNK_SIZE < file_size file)) as [Hlt|Hge].
  - destruct (IH (o + CHUNK_SIZE)) as (cs & -> & Hlen & Hnth); [lia|lia|].
    eexists (_ :: cs). split; [done|]. split.
    + rewrite length_cons, Nat2Z.inj_succ, Hlen.
      rewrite <- (ceil_chunks_step (file_size file - o)) by lia.
      replace (file_size file - (o + CHUNK_SIZE))
        with (file_size file - o - CHUNK_SIZE) by lia.
      lia.
    + intros [|k] c; simpl.
      * intros [= <-]. do 2 f_equal. lia.
      * intros Hc. rewrite (Hnth k c Hc). do 2 f_equal. lia.
  - eexists [_]. split; [done|]. split.
    + rewrite ceil_chunks_last by lia. done.
    + intros [|k] c; simpl; [|done]. intros [= <-]. do 2 f_equal. lia.
Qed.
End layout.

(** X17. The chunks of a file whose reads all succeed: there are
    ceil(size / 65536) of them, one for an empty file; the [k]-th is the
    slice of the file that starts at [k * 65536], so every chunk but the
    last has exactly 65536 bytes and the last has the rest. *)
Theorem chunk_layout (me myName : string) (conns : JSMap.t DataConnection)
    (now : Z) (readOk : Z → bool) (file : File)
    (existingFileId : option string) :
  truthy me = true → truthy myName = true → JSMap.size conns ≠ 0 →
  (∀ o, readOk o = true) →
  ∃ sent,
    sendSingleFile (Some me) myName conns now readOk file existingFileId
      = Some sent ∧
    Z.of_nat (length (sent_chunks sent))
      = Z.max 1 ((file_size file + CHUNK_SIZE - 1) / CHUNK_SIZE) ∧
    ∀ k c, sent_chunks sent !! k = Some c →
      c = take (Z.to_nat CHUNK_SIZE)
            (drop (Z.to_nat (Z.of_nat k * CHUNK_SIZE)) (file_bytes file)) ∧
      byteLength c
        = Z.min CHUNK_SIZE (file_size file - Z.of_nat k * CHUNK_SIZE) ∧
      (S k < length (sent_chunks sent) → byteLength c = CHUNK_SIZE)%nat.
Proof.
  intros Hme Hname Hconns Hok. unfold sendSingleFile.
  rewrite Hme, Hname. cbn [negb orb]. rewrite decide_False by done.
  destruct (readSlice_layout readOk file
              (make_fileId me now file existingFileId)
              (S (length (file_bytes file))) 0 Hok)
    as (cs & -> & Hlen & Hnth).
  { unfold file_size, byteLength. lia. }
  { unfold file_size, byteLength. lia. }
  eexists. split; [done|].
  change (sent_chunks (MMetadata ?md :: ?l)) with (sent_chunks l).
  rewrite sent_chunks_chunk_msgs. simpl. rewrite app_nil_r.
  rewrite Z.sub_0_r in Hlen. split; [done|].
  intros k c Hc. pose proof (Hnth k c Hc) as Hck. simpl in Hck.
  apply lookup_lt_Some in Hc as Hk.
  assert (Hbound : 0 ≤ Z.of_nat k * CHUNK_SIZE ≤ file_size file).
  { revert Hlen. unfold CHUNK_SIZE.
    pose proof (byteLength_nonneg (file_bytes file)). unfold file_size in *.
    intros Hlen. Z.div_mod_to_equations. lia. }
  split; [done|]. rewrite Hck.
  unfold file_size in *. rewrite byteLength_chunk by done.
  split; [done|]. intros Hnext. revert Hlen Hnext. unfold CHUNK_SIZE.
  intros Hlen Hnext. Z.div_mod_to_equations. lia.
Qed.

(** Three bytes make one chunk. *)
Lemma chunk_layout_witness :
  let file := {| file_name := "a.bin"; file_type := "";
                 file_bytes := [x01; x02; x03] |} in
  ∃ sent,
    sendSingleFile (Some "p1") "Ann" [("p2", {| conn_open := true |})] 7
      (λ _, true) file None = Some sent ∧
    Z.of_nat (length (sent_chunks sent)) = 1.
Proof.
  intros file.
  destruct (chunk_layout "p1" "Ann" [("p2", {| conn_open := true |})] 7
              (λ _, true) file None)
    as (sent & Hsent & Hlen & _).
  - reflexivity.
  - reflexivity.
  - unfold JSMap.size. simpl. lia.
  - intros o. reflexivity.
  - exists sent. split; [exact Hsent|]. rewrite Hlen. reflexivity.
Defined.

Section aborted.
Implicit Types (file : File) (fileId : string) (cs : list (list byte)).
Implicit Types (st : RoomState).

(** When the read at offset [o + j * CHUNK_SIZE] fails, the loop started
    at [o] sends at most [j] chunks and no [end]. *)
Lemma readSlice_fails readOk file fileId fuel o j :
  0 ≤ o ≤ file_size file → 0 ≤ j →
  j = 0 ∨ o + j * CHUNK_SIZE < file_size file →
  readOk (o + j * CHUNK_SIZE) = false →
  (Z.to_nat (file_size file - o) < fuel)%nat →
  ∃ cs, readSlice fuel readOk file fileId o = Some (chunk_msgs fileId cs) ∧
        byteLength (concat cs) ≤ j * CHUNK_SIZE ∧
        concat cs `prefix_of` drop (Z.to_nat o) (file_bytes file).
Proof.
  pose proof CHUNK_SIZE_pos as HC.
  revert o j. induction fuel as [|fuel IH]; intros o j Ho Hj Hin Hfail Hfuel;
    [lia|].
  destruct (readOk o) eqn:Hok.
  - assert (Hj1 : 1 ≤ j).
    { destruct (decide (j = 0)) as [->|]; [|lia].
      rewrite Z.mul_0_l, Z.add_0_r in Hfail. congruence. }
    assert (Hlt : o + CHUNK_SIZE < file_size file) by nia.
    rewrite readSlice_step by done. cbv zeta. rewrite decide_True by done.
    destruct (IH (o + CHUNK_SIZE) (j - 1)) as (cs & -> & Hlen & Hpre);
      [lia|lia| | |lia|].
    { destruct (decide (j - 1 = 0)); [by left|right; nia]. }
    { rewrite <- Hfail. f_equal. lia. }
    eexists (_ :: cs). split; [done|]. split.
    + simpl. rewrite byteLength_app.
      unfold file_size in Ho. rewrite byteLength_chunk by done. lia.
    + simpl.
      replace (Z.to_nat (o + CHUNK_SIZE))
        with (Z.to_nat o + Z.to_nat CHUNK_SIZE)%nat in Hpre by lia.
      rewrite <- drop_drop in Hpre.
      rewrite <- (take_drop (Z.to_nat CHUNK_SIZE)
                            (drop (Z.to_nat o) (file_bytes file))) at 2.
      by apply prefix_app.
  - exists []. simpl. rewrite Hok. split; [done|].
    split; [unfold byteLength; simpl; lia|apply prefix_nil].
Qed.

Lemma handleData_sealed now st fileId rf data :
  receivedFiles st !! fileId = Some rf → completed rf = true →
  carries data fileId → handleData now st data = (st, []).
Proof.
  intros Hrf Hc Hcar.
  destruct data; simpl in *; try done; subst; by rewrite Hrf, ?Hc.
Qed.

Lemma deliver_sealed clock i st fileId rf msgs :
  receivedFiles st !! fileId = Some rf → completed rf = true →
  Forall (λ m, carries m fileId) msgs → deliver clock i st msgs = st.
Proof.
  intros Hrf Hc Hall. revert i.
  induction Hall as [|m msgs Hm _ IH]; intros i; simpl; [done|].
  rewrite (handleData_sealed (clock i) st fileId rf m) by done. apply IH.
Qed.

Lemma handleData_unknown now st fileId data :
  receivedFiles st !! fileId = None →
  continues data fileId → handleData now st data = (st, []).
Proof.
  intros Hnone Hcont.
  destruct data; simpl in *; try done; subst; by rewrite Hnone.
Qed.

Lemma deliver_unknown clock i st fileId msgs :
  receivedFiles st !! fileId = None →
  Forall (λ m, continues m fileId) msgs → deliver clock i st msgs = st.
Proof.
  intros Hnone Hall. revert i.
  induction Hall as [|m msgs Hm _ IH]; intros i; simpl; [done|].
  rewrite (handleData_unknown (clock i) st fileId m) by done. apply IH.
Qed.

Lemma chunk_msgs_continue fileId cs :
  Forall (λ m, continues m fileId) (chunk_msgs fileId cs).
Proof. unfold chunk_msgs. apply Forall_fmap, Forall_true. by intros c. Qed.

Lemma transfer_trace_carries readOk file md sent :
  transfer_trace readOk file md sent →
  Forall (λ m, carries m (meta_fileId md)) sent.
Proof.
  assert (Hcs : ∀ cs, Forall (λ m, carries m (meta_fileId md))
                        (chunk_msgs (meta_fileId md) cs)).
  { intros cs. unfold chunk_msgs. apply Forall_fmap, Forall_true.
    by intros c. }
  intros [cs _ _|cs o _ _ _]; constructor; try done.
  apply Forall_app. split; [apply Hcs|]. by constructor.
Qed.

Lemma transfer_trace_tail readOk file md sent :
  transfer_trace readOk file md sent →
  Forall (λ m, continues m (meta_fileId md)) (drop 1 sent).
Proof.
  intros [cs _ _|cs o _ _ _]; simpl; [|apply chunk_msgs_continue].
  apply Forall_app. split; [apply chunk_msgs_continue|]. by constructor.
Qed.
End aborted.

(** X18. A transfer in which a read fails is never completed at the
    receiver. If the read at the chunk boundary [j * 65536] fails, the
    sender sends no [end]; a room that did not know the file id keeps
    the entry receiving, without a download URL and with at most
    [j * 65536] bytes, after every prefix of the trace. *)
Theorem failed_read_never_seals (me myName : string)
    (conns : JSMap.t DataConnection) (now : Z) (readOk : Z → bool)
    (file : File) (existingFileId : option string) (clock : nat → Z)
    (i : nat) (st : RoomState) (j : Z) :
  truthy me = true → truthy myName = true → JSMap.size conns ≠ 0 →
  0 ≤ j → j = 0 ∨ j * CHUNK_SIZE < file_size file →
  readOk (j * CHUNK_SIZE) = false →
  receivedFiles st !! make_fileId me now file existingFileId = None →
  ∃ sent,
    sendSingleFile (Some me) myName conns now readOk file existingFileId
      = Some sent ∧
    (MEnd (make_fileId me now file existingFileId) ∉ sent) ∧
    ∀ k rf,
      receivedFiles (deliver clock i st (take k sent))
        !! make_fileId me now file existingFileId = Some rf →
      completed rf = false ∧ downloadUrl rf = None ∧
      receivedSize rf ≤ j * CHUNK_SIZE.
Proof.
  intros Hme Hname Hconns Hj Hin Hfail Hfresh.
  set (fileId := make_fileId me now file existingFileId) in *.
  destruct (readSlice_fails readOk file fileId
              (S (length (file_bytes file))) 0 j)
    as (cs & Hread & Hlen & Hpre); try done.
  { pose proof (byteLength_nonneg (file_bytes file)). unfold file_size. lia. }
  { unfold file_size, byteLength. lia. }
  eexists. split.
  { unfold sendSingleFile. rewrite Hme, Hname. cbn [negb orb].
    rewrite decide_False by done. fold fileId. by rewrite Hread. }
  split.
  { intros [Hhd|Htl]%elem_of_cons; [done|].
    unfold chunk_msgs in Htl. by apply list_elem_of_fmap in Htl as (c & ? & _). }
  intros k rf. rewrite deliver_lookup, Hfresh.
  destruct k as [|k]; [done|]. rewrite firstn_cons, take_chunk_msgs.
  set (md := make_metadata me myName file fileId).
  change fileId with (meta_fileId md). rewrite receive_all_open.
  intros [= <-].
  destruct (updatedFile_fold (newFile (clock i) md) (take k cs))
    as (_ & Hc & _ & Hrs & _).
  rewrite Hc, Hrs. simpl. split; [done|]. split.
  - clear. induction (take k cs) as [|c l IH] using rev_ind; [done|].
    by rewrite foldl_app.
  - pose proof (byteLength_concat_take cs k). lia.
Qed.

(** The first read of a file fails: the metadata is all that is sent. *)
Lemma failed_read_never_seals_witness :
  let file := {| file_name := "a.bin"; file_type := "";
                 file_bytes := [x01; x02] |} in
  let st := {| myPeerIdRef := Some "p2"; myNameRef := "Bob"; isJoined := true;
               users := []; usersRef := []; receivedFiles := ∅;
               connectionsRef := []; status := "Joined room" |} in
  ∃ sent,
    sendSingleFile (Some "p1") "Ann" [("p2", {| conn_open := true |})] 7
      (λ _, false) file None = Some sent ∧
    MEnd "p1_7_a.bin" ∉ sent.
Proof.
  intros file st.
  destruct (failed_read_never_seals "p1" "Ann"
              [("p2", {| conn_open := true |})] 7 (λ _, false) file None
              (λ _, 9) 0%nat st 0)
    as (sent & Hsent & Hend & _).
  - reflexivity.
  - reflexivity.
  - unfold JSMap.size. simpl. lia.
  - lia.
  - by left.
  - reflexivity.
  - apply lookup_empty.
  - exists sent. by split.
Defined.

(** X19. A file sent again under a file id the room has sealed changes
    nothing there: whatever the reads do, the room after the whole trace
    is the room before it. *)
Theorem resend_to_sealed_room (me myName : string)
    (conns : JSMap.t DataConnection) (now : Z) (readOk : Z → bool)
    (file : File) (existingFileId : option string) (clock : nat → Z)
    (i : nat) (st : RoomState) (rf : ReceivedFile) :
  receivedFiles st !! make_fileId me now file existingFileId = Some rf →
  completed rf = true →
  ∃ sent,
    sendSingleFile (Some me) myName conns now readOk file existingFileId
      = Some sent ∧
    deliver clock i st sent = st.
Proof.
  intros Hrf Hc.
  destruct (truthy me) eqn:Hme; [destruct (truthy myName) eqn:Hname;
    [destruct (decide (JSMap.size conns = 0)) as [H0|H0]|]|].
  - exists []. split; [|done]. apply sendSingleFile_guarded. auto.
  - destruct (sendSingleFile_trace me myName conns now readOk file
                existingFileId Hme Hname H0) as (sent & Hsent & Htrace).
    exists sent. split; [done|].
    apply (deliver_sealed clock i st _ rf sent Hrf Hc).
    apply (transfer_trace_carries _ _ _ _ Htrace).
  - exists []. split; [|done]. apply sendSingleFile_guarded. auto.
  - exists []. split; [|done]. apply sendSingleFile_guarded. simpl. auto.
Qed.

(** A one-byte file is resent to a room that holds it sealed. *)
Lemma resend_to_sealed_room_witness :
  let file := {| file_name := "a.bin"; file_type := "";
                 file_bytes := [x01] |} in
  let md := {| meta_name := "a.bin"; meta_size := 1; meta_type := "";
               meta_senderId := "p1"; meta_senderName := "Ann";
               meta_fileId := "p1_7_a.bin" |} in
  let rf := sealedFile 9 (updatedFile (newFile 8 md) [x01]) in
  let st := {| myPeerIdRef := Some "p2"; myNameRef := "Bob"; isJoined := true;
               users := []; usersRef := [];
               receivedFiles := {["p1_7_a.bin" := rf]};
               connectionsRef := []; status := "Joined room" |} in
  ∃ sent,
    sendSingleFile (Some "p1") "Ann" [("p2", {| conn_open := true |})] 20
      (λ _, true) file (Some "p1_7_a.bin") = Some sent ∧
    deliver (λ _, 21) 0 st sent = st.
Proof.
  intros file md rf st.
  apply (resend_to_sealed_room "p1" "Ann" [("p2", {| conn_open := true |})]
           20 (λ _, true) file (Some "p1_7_a.bin") (λ _, 21) 0%nat st rf).
  - apply lookup_singleton_eq.
  - reflexivity.
Defined.

(** X21. A room that missed the metadata of a transfer takes nothing of
    it: the chunks and the [end] that follow are dropped and the room
    stays as it was. *)
Theorem late_joiner_receives_nothing (me myName : string)
    (conns : JSMap.t DataConnection) (now : Z) (readOk : Z → bool)
    (file : File) (existingFileId : option string) (clock : nat → Z)
    (i : nat) (st : RoomState) (k : nat) :
  receivedFiles st !! make_fileId me now file existingFileId = None →
  (1 ≤ k)%nat →
  ∃ sent,
    sendSingleFile (Some me) myName conns now readOk file existingFileId
      = Some sent ∧
    deliver clock i st (drop k sent) = st.
Proof.
  intros Hfresh Hk.
  destruct (truthy me) eqn:Hme; [destruct (truthy myName) eqn:Hname;
    [destruct (decide (JSMap.size conns = 0)) as [H0|H0]|]|].
  - exists []. split; [|by rewrite drop_nil].
    apply sendSingleFile_guarded. auto.
  - destruct (sendSingleFile_trace me myName conns now readOk file
                existingFileId Hme Hname H0) as (sent & Hsent & Htrace).
    exists sent. split; [done|].
    apply (deliver_unknown clock i st _ _ Hfresh).
    replace k with (1 + (k - 1))%nat by lia. rewrite <- drop_drop.
    apply Forall_drop. apply (transfer_trace_tail _ _ _ _ Htrace).
  - exists []. split; [|by rewrite drop_nil].
    apply sendSingleFile_guarded. auto.
  - exists []. split; [|by rewrite drop_nil].
    apply sendSingleFile_guarded. simpl. auto.
Qed.

(** A room hears a two-byte transfer from its first chunk on. *)
Lemma late_joiner_receives_nothing_witness :
  let file := {| file_name := "a.bin"; file_type := "";
                 file_bytes := [x01; x02] |} in
  let st := {| myPeerIdRef := Some "p3"; myNameRef := "Cy"; isJoined := true;
               users := []; usersRef := []; receivedFiles := ∅;
               connectionsRef := []; status := "Joined room" |} in
  ∃ sent,
    sendSingleFile (Some "p1") "Ann" [("p2", {| conn_open := true |})] 7
      (λ _, true) file None = Some sent ∧
    deliver (λ _, 9) 0 st (drop 1 sent) = st.
Proof.
  intros file st.
  apply (late_joiner_receives_nothing "p1" "Ann"
           [("p2", {| conn_open := true |})] 7 (λ _, true) file None
           (λ _, 9) 0%nat st 1).
  - apply lookup_empty.
  - lia.
Defined.

Section interleaving.
Implicit Types (fileId : string) (entry : option ReceivedFile).

Lemma receive_not_carried now data fileId entry :
  ¬ carries data fileId → receive now data fileId entry = entry.
Proof.
  destruct data; simpl; try done; intros Hn; by rewrite decide_False.
Qed.

Lemma receive_all_clock clock1 clock2 i1 i2 msgs fileId entry :
  (∀ k, clock1 (i1 + k)%nat = clock2 (i2 + k)%nat) →
  receive_all clock1 i1 msgs fileId entry
  = receive_all clock2 i2 msgs fileId entry.
Proof.
  revert i1 i2 entry. induction msgs as [|m msgs IH];
    intros i1 i2 entry Hclock; simpl; [done|].
  pose proof (Hclock 0%nat) as H0. rewrite !Nat.add_0_r in H0. rewrite H0.
  apply IH. intros k. specialize (Hclock (S k)).
  by rewrite !Nat.add_succ_r in Hclock.
Qed.

(** Only the messages that carry a file id, and the times at which they
    are handled, matter for its entry. *)
Lemma receive_all_filter clock i msgs fileId entry :
  ∃ clock',
    receive_all clock i msgs fileId entry
    = receive_all clock' 0 (filter (λ m, carries m fileId) msgs) fileId entry.
Proof.
  revert i entry. induction msgs as [|m msgs IH]; intros i entry.
  - by exists clock.
  - rewrite filter_cons. destruct (decide (carries m fileId)) as [Hc|Hc].
    + destruct (IH (S i) (receive (clock i) m fileId entry))
        as [clock'' Heq].
      exists (λ k, match k with O => clock i | S k' => clock'' k' end).
      simpl. rewrite Heq. by apply receive_all_clock.
    + destruct (IH (S i) entry) as [clock'' Heq]. exists clock''.
      simpl. by rewrite receive_not_carried.
Qed.
End interleaving.

(** X20. A file arrives whole also when its messages are interleaved with
    others: if the messages a room handles, whatever else is among them,
    carry the file id in exactly the messages of a transfer whose reads
    all succeed, a room that did not know the file id ends with the
    entry sealed, the chunks of that file as sent and a blob equal to the
    file. *)
Theorem interleaved_transfer (me myName : string)
    (conns : JSMap.t DataConnection) (now : Z) (readOk : Z → bool)
    (file : File) (existingFileId : option string) (clock : nat → Z)
    (i : nat) (st : RoomState) (msgs : list PeerData) :
  truthy me = true → truthy myName = true → JSMap.size conns ≠ 0 →
  (∀ o, readOk o = true) →
  receivedFiles st !! make_fileId me now file existingFileId = None →
  sendSingleFile (Some me) myName conns now readOk file existingFileId
  = Some (filter (λ m, carries m (make_fileId me now file existingFileId))
                 msgs) →
  ∃ rf blob,
    receivedFiles (deliver clock i st msgs)
      !! make_fileId me now file existingFileId = Some rf ∧
    completed rf = true ∧
    chunks rf
      = sent_chunks
          (filter (λ m, carries m (make_fileId me now file existingFileId))
                  msgs) ∧
    downloadUrl rf = Some blob ∧
    blob_bytes blob = file_bytes file ∧
    blob_type blob = file_type file ∧
    receivedSize rf = file_size file.
Proof.
  intros Hme Hname Hconns Hok Hfresh Hown.
  destruct (sendSingleFile_trace me myName conns now readOk file
              existingFileId Hme Hname Hconns) as (sent & Hsent & Htrace).
  set (fileId := make_fileId me now file existingFileId) in *.
  set (md := make_metadata me myName file fileId) in *.
  rewrite Hown in Hsent. injection Hsent as Hsent.
  destruct Htrace as [cs Hall Hcs|cs o _ Hfail _];
    [|by rewrite Hok in Hfail].
  change (meta_fileId md) with fileId in *.
  destruct (receive_all_filter clock i msgs fileId None) as [clock' Heq].
  rewrite deliver_lookup, Hfresh, Heq, Hsent.
  pose proof (receive_all_complete clock' 0 md cs) as Hrec.
  change (meta_fileId md) with fileId in Hrec. rewrite Hrec.
  destruct (updatedFile_fold (newFile (clock' 0%nat) md) cs)
    as (Hm & Hc & Hch & Hrs & _).
  eexists _, _. split; [done|]. simpl. rewrite Hch, Hm, Hrs, Hcs. simpl.
  change (sent_chunks (MMetadata md :: ?l)) with (sent_chunks l).
  rewrite sent_chunks_chunk_msgs. simpl. rewrite app_nil_r.
  repeat split; try done; simpl; by rewrite Hcs.
Qed.

(** A [join] arrives between the chunk and the [end] of a one-byte
    file. *)
Lemma interleaved_transfer_witness :
  let file := {| file_name := "a.bin"; file_type := "";
                 file_bytes := [x01] |} in
  let md := {| meta_name := "a.bin"; meta_size := 1; meta_type := "";
               meta_senderId := "p1"; meta_senderName := "Ann";
               meta_fileId := "p1_7_a.bin" |} in
  let st := {| myPeerIdRef := Some "p2"; myNameRef := "Bob"; isJoined := true;
               users := []; usersRef := []; receivedFiles := ∅;
               connectionsRef := []; status := "Joined room" |} in
  let msgs := [MMetadata md; MChunk [x01] 0 0 "p1_7_a.bin"; MJoin "Cy" "p3";
               MEnd "p1_7_a.bin"] in
  ∃ rf blob,
    receivedFiles (deliver (λ _, 9) 0 st msgs) !! "p1_7_a.bin" = Some rf ∧
    downloadUrl rf = Some blob ∧ blob_bytes blob = [x01].
Proof.
  intros file md st msgs.
  destruct (interleaved_transfer "p1" "Ann"
              [("p2", {| conn_open := true |})] 7 (λ _, true) file None
              (λ _, 9) 0%nat st msgs)
    as (rf & blob & Hrf & _ & _ & Hurl & Hbytes & _).
  - reflexivity.
  - reflexivity.
  - unfold JSMap.size. simpl. lia.
  - intros o. reflexivity.
  - apply lookup_empty.
  - reflexivity.
  - by exists rf, blob.
Defined.

(** ** The single-peer sender and receiver *)

Section single_peer.
Implicit Types (file : File) (cs : list (list byte)) (st : Receiver.State).

(** With the connection open throughout, the loop of the single-peer
    sender sends the chunks the room's loop sends. *)
Lemma Sender_readSlice_chunks readOk connOpen file fileId fuel o cs :
  (∀ x, connOpen x = true) →
  readSlice fuel readOk file fileId o
    = Some (chunk_msgs fileId cs ++ [MEnd fileId]) →
  Sender.readSlice fuel readOk connOpen file o
    = Some ((Sender.Chunk <$> cs) ++ [Sender.End_]).
Proof.
  intros Hconn. revert o cs.
  induction fuel as [|fuel IH]; intros o cs; simpl; [done|].
  rewrite Hconn. destruct (readOk o).
  - destruct (decide _) as [Hlt|Hge].
    + destruct (readSlice fuel readOk file fileId _) as [l|] eqn:E;
        [|done]. simpl. intros [= Hl].
      destruct cs as [|c cs]; [done|]. simpl in Hl.
      injection Hl as <- ->. by rewrite (IH _ cs E).
    + intros [= Hl]. destruct cs as [|c [|c' cs]]; simpl in Hl.
      * done.
      * by injection Hl as <-.
      * injection Hl as _ Hl. by destruct cs.
  - intros [= Hl]. by destruct cs.
Qed.

(** The receiver after a run of chunks of an announced file. *)
Lemma Receiver_chunks ix tot info cs st :
  Receiver.fileInfoRef st = Some info →
  let st' :=
    foldl Receiver.onData st ((λ c, Receiver.Chunk c ix tot) <$> cs) in
  Receiver.fileInfoRef st' = Some info ∧
  Receiver.receivedChunksRef st' = Receiver.receivedChunksRef st ++ cs ∧
  Receiver.receivedSizeRef st'
    = Receiver.receivedSizeRef st + byteLength (concat cs) ∧
  Receiver.downloadUrl st' = Receiver.downloadUrl st ∧
  (cs ≠ [] →
   Receiver.progress st'
     = percent (Receiver.receivedSizeRef st') (Receiver.size info)).
Proof.
  revert st. induction cs as [|c cs IH]; intros st Hinfo.
  - simpl. rewrite app_nil_r. unfold byteLength. simpl.
    split; [done|]. split; [done|]. split; [lia|]. done.
  - rewrite fmap_cons. cbn [foldl]. cbv zeta.
    set (st1 := Receiver.onData st (Receiver.Chunk c ix tot)).
    assert (H1 : Receiver.fileInfoRef st1 = Some info) by done.
    destruct (IH st1 H1) as (Hi & Hch & Hrs & Hurl & Hp).
    rewrite Hi, Hch, Hrs, Hurl. simpl. rewrite byteLength_app.
    split; [done|]. split; [by rewrite <- app_assoc|]. split; [lia|].
    split; [done|]. intros _. destruct cs as [|c' cs].
    + simpl. rewrite Hinfo. unfold percent. do 2 f_equal.
      unfold byteLength. simpl. lia.
    + rewrite Hp by done. rewrite Hrs. simpl. do 2 f_equal. 
Qed.
End single_peer.

(** X22. The single-peer pair, end to end. With the connection open and
    every read succeeding, [sendFile] ends, and a receiver that handles
    its messages, from whatever state it was in, offers a download
    whose bytes and type are the file's, has counted the file's size,
    is no longer receiving and, for a non-empty file, shows 100. A stray
    [chunk] or [end] after that leaves the download and the progress as
    they are. *)
Theorem single_peer_round_trip (readOk connOpen : Z → bool) (file : File)
    (ix tot : Z) (st : Receiver.State) :
  (∀ o, readOk o = true) → (∀ o, connOpen o = true) →
  ∃ sent,
    Sender.sendFile true readOk connOpen file = Some sent ∧
    let st' := foldl Receiver.onData st (on_wire ix tot <$> sent) in
    Receiver.downloadUrl st'
      = Some {| blob_bytes := file_bytes file;
                blob_type := file_type file |} ∧
    Receiver.receivedSizeRef st' = file_size file ∧
    Receiver.isReceiving st' = false ∧
    Receiver.fileInfoRef st' = None ∧
    (file_size file ≠ 0 → Receiver.progress st' = hundred) ∧
    Receiver.onData st' Receiver.End_ = st' ∧
    (∀ c ix' tot',
       Receiver.downloadUrl (Receiver.onData st' (Receiver.Chunk c ix' tot'))
         = Receiver.downloadUrl st' ∧
       Receiver.progress (Receiver.onData st' (Receiver.Chunk c ix' tot'))
         = Receiver.progress st').
Proof.
  intros Hok Hconn.
  destruct (readSlice_trace readOk file "" (S (length (file_bytes file))) 0)
    as (cs & _ & [[Hread Hcs]|(_ & [o Hfail] & _)]).
  { pose proof (byteLength_nonneg (file_bytes file)). unfold file_size. lia. }
  { unfold file_size, byteLength. lia. }
  2:{ by rewrite Hok in Hfail. }
  change (drop (Z.to_nat 0) (file_bytes file)) with (file_bytes file) in Hcs.
  pose proof (Sender_readSlice_chunks readOk connOpen file ""
                (S (length (file_bytes file))) 0 cs Hconn Hread) as Hsent.
  eexists. split.
  { unfold Sender.sendFile. cbn [negb]. by rewrite Hsent. }
  cbv zeta. rewrite fmap_cons, fmap_app, <- list_fmap_compose.
  cbn [foldl on_wire fmap list_fmap]. rewrite foldl_app.
  set (info := {| Receiver.name := file_name file;
                  Receiver.size := file_size file;
                  Receiver.type := file_type file |}).
  set (st0 := Receiver.onData st (Receiver.Metadata info)).
  change (on_wire ix tot ∘ Sender.Chunk)
    with (λ c, Receiver.Chunk c ix tot).
  destruct (Receiver_chunks ix tot info cs st0 eq_refl)
    as (Hi & Hch & Hrs & Hurl & Hp).
  cbn [foldl]. simpl in Hch, Hrs.
  cbn [Receiver.onData]. rewrite Hi.
  cbn [Receiver.downloadUrl Receiver.receivedSizeRef Receiver.isReceiving
       Receiver.fileInfoRef Receiver.progress].
  rewrite Hch, Hrs, Hcs.
  split; [unfold newBlob; by rewrite Hcs|].
  split; [done|]. split; [done|]. split; [done|].
  split.
  { intros Hne. destruct cs as [|c cs].
    - simpl in Hcs. unfold file_size, byteLength in Hne.
      rewrite <- Hcs in Hne. done.
    - rewrite Hp by done. rewrite Hrs, Hcs. simpl.
      by apply percent_full. }
  split; done.
Qed.

(** Two bytes are sent to a receiver that was in the middle of another
    transfer. *)
Lemma single_peer_round_trip_witness :
  let file := {| file_name := "a.bin"; file_type := "text/plain";
                 file_bytes := [x01; x02] |} in
  let st := {| Receiver.fileInfoRef :=
                 Some {| Receiver.name := "old"; Receiver.size := 9;
                         Receiver.type := "" |};
               Receiver.receivedChunksRef := [[x09]];
               Receiver.receivedSizeRef := 1;
               Receiver.progress := NaN;
               Receiver.downloadUrl := None;
               Receiver.isReceiving := true;
               Receiver.status := "Receiving old..." |} in
  ∃ sent,
    Sender.sendFile true (λ _, true) (λ _, true) file = Some sent ∧
    Receiver.downloadUrl (foldl Receiver.onData st (on_wire 0 0 <$> sent))
    = Some {| blob_bytes := [x01; x02]; blob_type := "text/plain" |}.
Proof.
  intros file st.
  destruct (single_peer_round_trip (λ _, true) (λ _, true) file 0 0 st)
    as (sent & Hsent & Hurl & _).
  - intros o. reflexivity.
  - intros o. reflexivity.
  - exists sent. by split.
Defined.



(** ** The sender's history *)

Section sent_history.
Implicit Types (f e : SentFile) (prev : list SentFile) (fileId : string).

Lemma set_sent_progress_fresh fileId p prev :
  sent_fresh fileId prev → set_sent_progress fileId p prev = prev.
Proof.
  unfold set_sent_progress. induction 1 as [|f prev Hf _ IH]; [done|].
  rewrite fmap_cons, IH. by rewrite decide_False.
Qed.

Lemma set_sent_completed_fresh fileId b prev :
  sent_fresh fileId prev → set_sent_completed fileId b prev = prev.
Proof.
  unfold set_sent_completed. induction 1 as [|f prev Hf _ IH]; [done|].
  rewrite fmap_cons, IH. by rewrite decide_False.
Qed.

Lemma set_sent_progress_head fileId p e prev :
  meta_fileId (sent_metadata e) = fileId → sent_fresh fileId prev →
  set_sent_progress fileId p (e :: prev)
  = {| sent_metadata := sent_metadata e;
       sent_downloadUrl := sent_downloadUrl e;
       sent_timestamp := sent_timestamp e;
       sent_blob := sent_blob e;
       sent_progress := Some p;
       sent_completed := sent_completed e |} :: prev.
Proof.
  intros He Hfresh. rewrite <- (set_sent_progress_fresh fileId p prev) at 2
    by done.
  unfold set_sent_progress. rewrite fmap_cons. by rewrite (decide_True _ _ He).
Qed.

Lemma set_sent_completed_head fileId b e prev :
  meta_fileId (sent_metadata e) = fileId → sent_fresh fileId prev →
  set_sent_completed fileId b (e :: prev)
  = {| sent_metadata := sent_metadata e;
       sent_downloadUrl := Some b;
       sent_timestamp := sent_timestamp e;
       sent_blob := sent_blob e;
       sent_progress := Some hundred;
       sent_completed := Some true |} :: prev.
Proof.
  intros He Hfresh. rewrite <- (set_sent_completed_fresh fileId b prev) at 2
    by done.
  unfold set_sent_completed. rewrite fmap_cons. by rewrite (decide_True _ _ He).
Qed.

Lemma readSlice_sentFiles_step fuel readOk isResend file fileId o prev :
  readOk o = true → 0 ≤ o ≤ file_size file →
  readSlice_sentFiles (S fuel) readOk isResend file fileId o prev =
  let offset := Z.min (o + CHUNK_SIZE) (file_size file) in
  let prev1 :=
    if negb isResend
    then set_sent_progress fileId (percent offset (file_size file)) prev
    else prev in
  if decide (o + CHUNK_SIZE < file_size file) then
    readSlice_sentFiles fuel readOk isResend file fileId (o + CHUNK_SIZE) prev1
  else Some (if negb isResend
             then set_sent_completed fileId (file_blob file) prev1
             else prev1).
Proof.
  intros Hok Ho. cbn [readSlice_sentFiles]. rewrite Hok. unfold file_size in *.
  rewrite blob_slice_chunk, byteLength_chunk by done. cbv zeta.
  replace (o + Z.min CHUNK_SIZE (byteLength (file_bytes file) - o))
    with (Z.min (o + CHUNK_SIZE) (byteLength (file_bytes file))) by lia.
  destruct (decide (o + CHUNK_SIZE < _)) as [Hlt|Hge].
  - rewrite decide_True by lia. f_equal. lia.
  - by rewrite decide_False by lia.
Qed.

(** A resend leaves the history alone, whatever the reads do. *)
Lemma readSlice_sentFiles_resend readOk file fileId fuel o prev :
  0 ≤ o ≤ file_size file →
  (Z.to_nat (file_size file - o) < fuel)%nat →
  readSlice_sentFiles fuel readOk true file fileId o prev = Some prev.
Proof.
  pose proof CHUNK_SIZE_pos as HC.
  revert o. induction fuel as [|fuel IH]; intros o Ho Hfuel; [lia|].
  destruct (readOk o) eqn:Hok.
  - rewrite readSlice_sentFiles_step by done. cbn [negb]. cbv zeta.
    destruct (decide (o + CHUNK_SIZE < file_size file)); [|done].
    apply IH; lia.
  - cbn [readSlice_sentFiles]. by rewrite Hok.
Qed.

(** The entry of the transfer, at the head of the history, through the
    read loop, side by side with the broadcasts of the same loop. *)
Lemma readSlice_sentFiles_entry readOk file fileId fuel o e0 prev :
  0 ≤ o ≤ file_size file →
  (Z.to_nat (file_size file - o) < fuel)%nat →
  meta_fileId (sent_metadata e0) = fileId →
  sent_completed e0 = Some false →
  sent_fresh fileId prev →
  ∃ cs e,
    readSlice_sentFiles fuel readOk false file fileId o (e0 :: prev)
      = Some (e :: prev) ∧
    sent_metadata e = sent_metadata e0 ∧
    sent_timestamp e = sent_timestamp e0 ∧
    sent_blob e = sent_blob e0 ∧
    ((readSlice fuel readOk file fileId o
        = Some (chunk_msgs fileId cs ++ [MEnd fileId]) ∧
      sent_completed e = Some true ∧
      sent_progress e = Some hundred ∧
      sent_downloadUrl e = Some (file_blob file)) ∨
     (readSlice fuel readOk file fileId o = Some (chunk_msgs fileId cs) ∧
      sent_completed e = Some false ∧
      sent_downloadUrl e = sent_downloadUrl e0)).
Proof.
  pose proof CHUNK_SIZE_pos as HC.
  revert o e0. induction fuel as [|fuel IH];
    intros o e0 Ho Hfuel Hid Hc Hfresh; [lia|].
  destruct (readOk o) eqn:Hok.
  - rewrite readSlice_sentFiles_step, readSlice_step by done.
    cbn [negb]. cbv zeta.
    set (chunk := take _ _).
    rewrite !set_sent_progress_head by done.
    set (e1 := Build_SentFile _ _ _ _ _ _).
    destruct (decide (o + CHUNK_SIZE < file_size file)) as [Hlt|Hge].
    + destruct (IH (o + CHUNK_SIZE) e1)
        as (cs & e & -> & Hm & Ht & Hb & Hcase); [lia|lia|done|done|done|].
      exists (chunk :: cs), e. split; [done|]. do 3 (split; [done|]).
      destruct Hcase as [(-> & ?)|(-> & ?)]; [left|right]; done.
    + exists [chunk]. eexists. split.
      { by rewrite set_sent_completed_head. }
      cbn. do 3 (split; [done|]). by left.
  - exists [], e0. cbn [readSlice_sentFiles readSlice]. rewrite Hok.
    do 4 (split; [done|]). by right.
Qed.

Lemma MEnd_not_chunk fileId cs : MEnd fileId ∉ chunk_msgs fileId cs.
Proof.
  unfold chunk_msgs. intros (c & Hc & _)%list_elem_of_fmap. discriminate.
Qed.

Lemma file_blob_bytes file : blob_bytes (file_blob file) = file_bytes file.
Proof. unfold file_blob, newBlob. cbn. apply app_nil_r. Qed.

End sent_history.

(** X24. The entry that [sendSingleFile] adds to the sender's history follows
    the broadcasts: a first send in a room with a connection, with a file id
    the history does not hold yet, puts one entry in front of the history and
    leaves the older ones. The entry names the file and keeps its bytes; it
    is completed exactly when the [end] was broadcast, then at 100 with a
    download of the file, and otherwise stays incomplete without a
    download. A resend changes nothing in the history. *)
Theorem sent_history_follows_broadcasts me myName conns now t readOk file
    existingFileId prev :
  truthy me = true → truthy myName = true → JSMap.size conns ≠ 0 →
  let fileId := make_fileId me now file existingFileId in
  sent_fresh fileId prev →
  (∃ sent e,
     sendSingleFile (Some me) myName conns now readOk file existingFileId
       = Some sent ∧
     sendSingleFile_sentFiles (Some me) myName conns now t readOk file false
       existingFileId prev = Some (e :: prev) ∧
     sent_metadata e = make_metadata me myName file fileId ∧
     sent_timestamp e = t ∧
     (∃ b, sent_blob e = Some b ∧ blob_bytes b = file_bytes file
           ∧ blob_type b = file_type file) ∧
     (sent_completed e = Some true ↔ MEnd fileId ∈ sent) ∧
     (MEnd fileId ∈ sent →
      sent_progress e = Some hundred ∧
      sent_downloadUrl e = Some (file_blob file)) ∧
     (MEnd fileId ∉ sent →
      sent_completed e = Some false ∧ sent_downloadUrl e = None)) ∧
  ∀ others,
    sendSingleFile_sentFiles (Some me) myName conns now t readOk file true
      existingFileId others = Some others.
Proof.
  intros Hme Hname Hconns fileId Hfresh. split.
  - unfold sendSingleFile, sendSingleFile_sentFiles. rewrite Hme, Hname.
    cbn [negb orb]. rewrite !decide_False by done. cbv zeta. fold fileId.
    set (e0 := Build_SentFile _ _ _ _ _ _).
    destruct (readSlice_sentFiles_entry readOk file fileId
                (S (length (file_bytes file))) 0 e0 prev)
      as (cs & e & -> & Hm & Ht & Hb & Hcase);
      [unfold file_size, byteLength; lia
      |unfold file_size, byteLength; lia|done|done|done|].
    destruct Hcase as [(-> & Hc & Hp & Hu)|(-> & Hc & Hu)].
    + eexists _, e. split; [done|]. split; [done|].
      do 2 (split; [done|]).
      split.
      { exists (file_blob file). rewrite Hb. split; [done|].
        split; [apply file_blob_bytes|done]. }
      assert (Hin : MEnd fileId ∈ MMetadata (make_metadata me myName file fileId)
                      :: chunk_msgs fileId cs ++ [MEnd fileId]).
      { right. apply elem_of_app. right. left. }
      split; [done|]. split; [done|]. intros Hnot. by destruct Hnot.
    + eexists _, e. split; [done|]. split; [done|].
      do 2 (split; [done|]).
      split.
      { exists (file_blob file). rewrite Hb. split; [done|].
        split; [apply file_blob_bytes|done]. }
      assert (Hnin : MEnd fileId ∉ MMetadata (make_metadata me myName file fileId)
                       :: chunk_msgs fileId cs).
      { intros [Heq|Hin]%elem_of_cons; [discriminate|].
        by apply MEnd_not_chunk in Hin. }
      split; [split; [congruence|done]|]. split; [done|]. done.
  - intros others. unfold sendSingleFile_sentFiles. rewrite Hme, Hname.
    cbn [negb orb]. rewrite decide_False by done. cbv zeta.
    apply readSlice_sentFiles_resend; unfold file_size, byteLength; lia.
Qed.

(** A two-byte file sent to one peer: the history gains one entry, and a
    later resend leaves it as it is. *)
Lemma sent_history_follows_broadcasts_witness :
  let file := {| file_name := "a.bin"; file_type := "text/plain";
                 file_bytes := [x01; x02] |} in
  let conns := [("p2", {| conn_open := true |})] in
  ∃ e, sendSingleFile_sentFiles (Some "p1") "Ann" conns 7 8 (λ _, true) file
         false None [] = Some [e] ∧
       sent_timestamp e = 8 ∧
       sendSingleFile_sentFiles (Some "p1") "Ann" conns 7 8 (λ _, true) file
         true None [e] = Some [e].
Proof.
  intros file conns.
  destruct (sent_history_follows_broadcasts "p1" "Ann" conns 7 8 (λ _, true)
              file None [])
    as [(sent & e & _ & He & _ & Ht & _) Hre].
  - reflexivity.
  - reflexivity.
  - unfold JSMap.size. simpl. lia.
  - constructor.
  - exists e. split; [exact He|]. split; [exact Ht|]. apply Hre.
Defined.

(** ** The history list *)

Section history.
Import History.
Implicit Types (x y : Item) (l : list Item).

Lemma insert_item_Permutation x l : insert_item x l ≡ₚ x :: l.
Proof.
  induction l as [|y l IH]; [done|]. cbn [insert_item].
  destruct (decide _); [done|]. rewrite IH. apply Permutation_swap.
Qed.

Lemma sort_newest_first_Permutation l : sort_newest_first l ≡ₚ l.
Proof.
  induction l as [|x l IH]; [done|]. cbn.
  rewrite insert_item_Permutation. by f_equiv.
Qed.

Lemma insert_item_sorted x l :
  StronglySorted newer_first l → StronglySorted newer_first (insert_item x l).
Proof.
  induction 1 as [|y l Hl IH Hy]; [by repeat constructor|].
  cbn [insert_item]. destruct (decide _) as [Hle|Hgt].
  - constructor; [by constructor|]. constructor.
    + unfold newer_first. lia.
    + eapply Forall_impl; [exact Hy|]. unfold newer_first. intros z Hz. lia.
  - constructor; [done|]. rewrite insert_item_Permutation.
    constructor; [|done]. unfold newer_first. lia.
Qed.

Lemma sort_newest_first_sorted l :
  StronglySorted newer_first (sort_newest_first l).
Proof.
  induction l as [|x l IH]; [constructor|]. by apply insert_item_sorted.
Qed.

(** Items of one timestamp keep their order. *)
Lemma insert_item_stable t x l :
  filter (λ z, item_timestamp z = t) (insert_item x l)
  = filter (λ z, item_timestamp z = t) (x :: l).
Proof.
  induction l as [|y l IH]; [done|]. cbn [insert_item].
  destruct (decide _) as [Hle|Hgt]; [done|].
  rewrite (filter_cons _ y (insert_item x l)), IH, !filter_cons.
  repeat case_decide; (done || lia).
Qed.

Lemma sort_newest_first_stable t l :
  filter (λ z, item_timestamp z = t) (sort_newest_first l)
  = filter (λ z, item_timestamp z = t) l.
Proof.
  induction l as [|x l IH]; [done|]. cbn [sort_newest_first foldr].
  rewrite insert_item_stable, !filter_cons.
  fold (sort_newest_first l). by rewrite IH.
Qed.

End history.

(** X25. [historyItems] lists every sent and every received file once, the
    newest first, where a received file counts from its completion when it
    has one and from its arrival otherwise; files of one timestamp stay in
    the order sent before received, each in the order of its list. *)
Theorem history_newest_first receivedEntries sentFiles :
  let items := History.historyItems receivedEntries sentFiles in
  let sentList := imap History.sentItem sentFiles in
  let receivedList := History.receivedItem <$> receivedEntries in
  items ≡ₚ sentList ++ receivedList ∧
  StronglySorted newer_first items ∧
  (∀ t, filter (λ z, History.item_timestamp z = t) items
        = filter (λ z, History.item_timestamp z = t) sentList
          ++ filter (λ z, History.item_timestamp z = t) receivedList) ∧
  (∀ i f, sentFiles !! i = Some f →
          ∃ x, x ∈ items ∧ History.item_file x = inr f ∧
               History.direction x = History.sent ∧
               History.item_timestamp x = sent_timestamp f) ∧
  (∀ key rf, (key, rf) ∈ receivedEntries →
             ∃ x, x ∈ items ∧ History.item_file x = inl rf ∧
                  History.direction x = History.received ∧
                  History.item_timestamp x
                  = if completedAt rf is Some c then c else timestamp rf).
Proof.
  cbv zeta. unfold History.historyItems.
  split; [apply sort_newest_first_Permutation|].
  split; [apply sort_newest_first_sorted|].
  split; [intros t; by rewrite sort_newest_first_stable, filter_app|].
  split.
  - intros i f Hi. exists (History.sentItem i f).
    split; [|done]. rewrite sort_newest_first_Permutation.
    apply elem_of_app. left. apply list_elem_of_lookup. exists i.
    by rewrite list_lookup_imap, Hi.
  - intros key rf Hin. exists (History.receivedItem (key, rf)).
    split; [|cbn; by destruct (completedAt rf)].
    rewrite sort_newest_first_Permutation.
    apply elem_of_app. right. by apply list_elem_of_fmap_2.
Qed.
